(** * Logical tiles of the execution engine: a shallow embedding

    The development follows [src/executor/logical_tile.cpp] (the logical
    tile, its accessors, its iterator and its destructor),
    [src/backend/planner/order_by_node.h] (the order-by plan node) and
    [src/executor/materialization_executor.h] (the materialization
    executor, of which only the declaration is available).

    Conventions of the embedding:
    - [id_t] values (column ids, row ids, positions) are unsigned, hence
      binary naturals [N]; the [int] results of [NumTuples], [NumCols] and
      [AddPositionList] are given as the integers [Z] that the source
      converts to [int].  The conversion, [to_int], keeps every count up to
      [INT_MAX].  The width of [id_t] is not fixed by the sources at hand
      ([common/types.h] is not among them), so sizes of vectors are taken
      to be representable in it, and [pos_++] on a position below the
      number of rows does not wrap;
    - pointers ([storage::Tile *], [storage::Tuple *], [LogicalTile *]) are
      addresses in [N], the null pointer being [0];
    - [std::vector] is [list]; an access [v[i]] out of range, which C++
      leaves undefined, is the error [Undefined];
    - a failed [assert] is the error [AssertionFailed];
    - [std::unordered_set<storage::Tile *>] is stdpp's [gset]. *)

From Stdlib Require Import ZArith NArith Lia.
From stdpp Require Import base option list sorting gmap sets fin_maps.

Local Open Scope N_scope.

Set Default Proof Using "Type".

(** ** Results of fallible code *)

Inductive result (A : Type) : Type :=
| Ok (a : A)
| AssertionFailed
| Undefined
| OutOfFuel.

Arguments Ok {A} a.
Arguments AssertionFailed {A}.
Arguments Undefined {A}.
Arguments OutOfFuel {A}.

Definition rbind {A B : Type} (m : result A) (k : A -> result B) : result B :=
  match m with
  | Ok a => k a
  | AssertionFailed => AssertionFailed
  | Undefined => Undefined
  | OutOfFuel => OutOfFuel
  end.

Notation "x <~ m ;; k" := (rbind m (fun x => k))
  (at level 100, m at next level, right associativity).

(** [assert(b)] *)
Definition assert (b : bool) : result unit :=
  if b then Ok tt else AssertionFailed.

(** [v[i]] on a [std::vector] *)
Definition vec_at {A : Type} (v : list A) (i : N) : result A :=
  match v !! N.to_nat i with
  | Some a => Ok a
  | None => Undefined
  end.

(** [v.size()] *)
Definition vec_size {A : Type} (v : list A) : N := N.of_nat (length v).

(** [v.resize(n, x)]: keeps the first [n] elements and pads with [x]. *)
Definition vec_resize {A : Type} (v : list A) (n : N) (x : A) : list A :=
  take (N.to_nat n) v ++ replicate (N.to_nat n - length v)%nat x.

Definition is_ok {A : Type} (r : result A) : bool :=
  match r with Ok _ => true | _ => false end.

(** ** The logical tile *)

Abbreviation id_t := N (only parsing).
Abbreviation TilePtr := N (only parsing).
Abbreviation TuplePtr := N (only parsing).
Abbreviation LogicalTilePtr := N (only parsing).
Definition NULL : N := 0.

(** [LogicalTile::ColumnPointer] *)
Record ColumnPointer : Type := mkColumnPointer {
  base_tile : TilePtr;
  origin_column_id : id_t;
  position_list_idx : N
}.

(** The data members of [LogicalTile]. *)
Record LogicalTile : Type := mkLogicalTile {
  schema_ : list ColumnPointer;
  position_lists_ : list (list id_t);
  valid_rows_ : list bool;
  num_tuples_ : id_t;
  owned_base_tiles_ : gset N
}.

(** Assignments to single data members. *)
Definition set_schema (s : list ColumnPointer) (t : LogicalTile) : LogicalTile :=
  mkLogicalTile s (position_lists_ t) (valid_rows_ t) (num_tuples_ t)
                (owned_base_tiles_ t).

Definition set_position_lists (p : list (list id_t)) (t : LogicalTile)
    : LogicalTile :=
  mkLogicalTile (schema_ t) p (valid_rows_ t) (num_tuples_ t)
                (owned_base_tiles_ t).

Definition set_valid_rows (v : list bool) (t : LogicalTile) : LogicalTile :=
  mkLogicalTile (schema_ t) (position_lists_ t) v (num_tuples_ t)
                (owned_base_tiles_ t).

Definition set_num_tuples (n : id_t) (t : LogicalTile) : LogicalTile :=
  mkLogicalTile (schema_ t) (position_lists_ t) (valid_rows_ t) n
                (owned_base_tiles_ t).

Definition set_owned_base_tiles (o : gset N) (t : LogicalTile) : LogicalTile :=
  mkLogicalTile (schema_ t) (position_lists_ t) (valid_rows_ t) (num_tuples_ t)
                o.

(** [LogicalTile::LogicalTile()], the do-nothing constructor: the containers
    start empty.  The initial value of [num_tuples_] is given by the class
    declaration, which is not at hand; it is the argument [n0]. *)
Definition LogicalTile_new (n0 : id_t) : LogicalTile :=
  {| schema_ := [];
     position_lists_ := [];
     valid_rows_ := [];
     num_tuples_ := n0;
     owned_base_tiles_ := ∅ |}.

(** [LogicalTile::AddColumn] *)
Definition AddColumn (t : LogicalTile) (base : TilePtr) (own_base_tile : bool)
    (origin : id_t) (pl_idx : N) : result LogicalTile :=
  _ <~ assert (pl_idx <? vec_size (position_lists_ t)) ;;
  let cp := {| base_tile := base;
               origin_column_id := origin;
               position_list_idx := pl_idx |} in
  let t := set_schema (schema_ t ++ [cp]) t in
  let t := if own_base_tile
           then set_owned_base_tiles ({[ base ]} ∪ owned_base_tiles_ t) t
           else t in
  Ok t.

(** The condition of the [assert] of [AddPositionList]:
    [position_lists_.size() == 0
       || position_lists_[0].size() == position_list.size()] *)
Definition same_length_as_first (t : LogicalTile) (position_list : list id_t)
    : result bool :=
  if vec_size (position_lists_ t) =? 0 then Ok true
  else first <~ vec_at (position_lists_ t) 0 ;;
       Ok (vec_size first =? vec_size position_list).

(** [LogicalTile::AddPositionList]: the tile after the call and the index
    returned. *)
Definition AddPositionList (t : LogicalTile) (position_list : list id_t)
    : result (LogicalTile * Z) :=
  c <~ same_length_as_first t position_list ;;
  _ <~ assert c ;;
  let t := if vec_size (position_lists_ t) =? 0
           then let t := set_num_tuples (vec_size position_list) t in
                set_valid_rows
                  (vec_resize (valid_rows_ t) (vec_size position_list) true) t
           else t in
  let t := set_position_lists (position_lists_ t ++ [position_list]) t in
  Ok (t, (Z.of_N (vec_size (position_lists_ t)) - 1)%Z).

(** [LogicalTile::GetBaseTile] (no assertion in the source) *)
Definition GetBaseTile (t : LogicalTile) (column_id : id_t) : result TilePtr :=
  cp <~ vec_at (schema_ t) column_id ;;
  Ok (base_tile cp).

(** The conversion of a count to [int], a 32-bit integer in two's
    complement: counts up to [INT_MAX] are kept, larger ones wrap around. *)
Definition INT_MAX : Z := 2147483647.

Definition to_int (z : Z) : Z :=
  ((z + 2147483648) mod 4294967296 - 2147483648)%Z.

(** [LogicalTile::NumTuples]: the value of [num_tuples_].  The source
    returns it as an [int], which is [to_int] of this value: the same number
    as long as [num_tuples_] is at most [INT_MAX]. *)
Definition NumTuples (t : LogicalTile) : Z := Z.of_N (num_tuples_ t).

(** [LogicalTile::NumCols]: the value of [schema_.size()], returned as an
    [int] in the same way. *)
Definition NumCols (t : LogicalTile) : Z := Z.of_N (vec_size (schema_ t)).

(** [LogicalTile::~LogicalTile]: the pointers handed to [delete], in the
    order in which the loop over [owned_base_tiles_] meets them. *)
Definition LogicalTile_destroy (t : LogicalTile) : list TilePtr :=
  elements (owned_base_tiles_ t).

(** ** The build phase

    A tile is assembled by a sequence of calls of [AddPositionList] and
    [AddColumn] on a new tile; the first failing call aborts the sequence. *)

Inductive BuildOp : Type :=
| OpAddPositionList (position_list : list id_t)
| OpAddColumn (base : TilePtr) (own_base_tile : bool) (origin : id_t)
              (pl_idx : N).

Definition apply_op (t : LogicalTile) (op : BuildOp) : result LogicalTile :=
  match op with
  | OpAddPositionList l => r <~ AddPositionList t l ;; Ok (fst r)
  | OpAddColumn b o c i => AddColumn t b o c i
  end.

Fixpoint build (t : LogicalTile) (ops : list BuildOp) : result LogicalTile :=
  match ops with
  | [] => Ok t
  | op :: ops' => t' <~ apply_op t op ;; build t' ops'
  end.

(** The position lists among the operations, in call order. *)
Definition lists_of (ops : list BuildOp) : list (list id_t) :=
  omap (fun op => match op with
                  | OpAddPositionList l => Some l
                  | OpAddColumn _ _ _ _ => None
                  end) ops.

(** The column descriptors the operations append, in call order. *)
Definition cols_of (ops : list BuildOp) : list ColumnPointer :=
  omap (fun op => match op with
                  | OpAddPositionList _ => None
                  | OpAddColumn b _ c i => Some (mkColumnPointer b c i)
                  end) ops.

(** The base tiles passed to [AddColumn] with, respectively without,
    [own_base_tile] set. *)
Definition passed_owned (ops : list BuildOp) (p : TilePtr) : Prop :=
  ∃ c i, OpAddColumn p true c i ∈ ops.

Definition passed_unowned (ops : list BuildOp) (p : TilePtr) : Prop :=
  ∃ c i, OpAddColumn p false c i ∈ ops.

(** The operations a build phase goes through without a failed assertion,
    on a tile that holds [n] position lists, the first of them of the length
    [first] if there is one: a list is accepted when it is the first or as
    long as the first, a column when its list has been added. *)
Fixpoint accepted (n : nat) (first : option nat) (ops : list BuildOp) : bool :=
  match ops with
  | [] => true
  | OpAddPositionList l :: ops' =>
      match first with
      | None => accepted (S n) (Some (length l)) ops'
      | Some len => Nat.eqb (length l) len && accepted (S n) first ops'
      end
  | OpAddColumn _ _ _ i :: ops' => (i <? N.of_nat n) && accepted n first ops'
  end.

(** ** The iterator *)

(** The data members of [LogicalTile::iterator]. *)
Record iterator : Type := mkIterator {
  pos_ : id_t;
  tile_ : LogicalTilePtr
}.

(** The loop condition [pos_ < tile_->valid_rows_.size()
    && !tile_->valid_rows_[pos_]], with the short circuit of [&&]. *)
Definition at_invalid_row (valid_rows : list bool) (pos : id_t) : result bool :=
  if pos <? vec_size valid_rows
  then v <~ vec_at valid_rows pos ;; Ok (negb v)
  else Ok false.

(** [while (cond) { pos_++; }] of the constructor. *)
Fixpoint find_first_valid (fuel : nat) (valid_rows : list bool) (pos : id_t)
    : result id_t :=
  match fuel with
  | O => OutOfFuel
  | S fuel' =>
      c <~ at_invalid_row valid_rows pos ;;
      if c then find_first_valid fuel' valid_rows (pos + 1) else Ok pos
  end.

(** [do { pos_++; } while (cond);] of the increment. *)
Fixpoint find_next_valid (fuel : nat) (valid_rows : list bool) (pos : id_t)
    : result id_t :=
  match fuel with
  | O => OutOfFuel
  | S fuel' =>
      let pos := pos + 1 in
      c <~ at_invalid_row valid_rows pos ;;
      if c then find_next_valid fuel' valid_rows pos else Ok pos
  end.

(** ** Calls to physical tiles

    A call of an accessor of a physical tile is recorded, so that a result
    comes with the calls made to obtain it. *)

Inductive TileCall : Type :=
| CallGetValue (tile : TilePtr) (row col : id_t)
| CallGetTuple (tile : TilePtr) (row : id_t).

Definition traced (A : Type) : Type := (result A * list TileCall)%type.

Definition tret {A : Type} (a : A) : traced A := (Ok a, []).

Definition tlift {A : Type} (r : result A) : traced A := (r, []).

Definition tbind {A B : Type} (m : traced A) (k : A -> traced B) : traced B :=
  match fst m with
  | Ok a => (fst (k a), snd m ++ snd (k a))
  | AssertionFailed => (AssertionFailed, snd m)
  | Undefined => (Undefined, snd m)
  | OutOfFuel => (OutOfFuel, snd m)
  end.

Notation "x <~~ m ;; k" := (tbind m (fun x => k))
  (at level 100, m at next level, right associativity).

Definition tassert (b : bool) : traced unit := tlift (assert b).

(** A loop over the elements of a container, in the order given. *)
Fixpoint rfoldl {A B : Type} (f : A -> B -> result A) (a : A) (l : list B)
    : result A :=
  match l with
  | [] => Ok a
  | x :: l' => a' <~ f a x ;; rfoldl f a' l'
  end.

Fixpoint tfoldl {A B : Type} (f : A -> B -> traced A) (a : A) (l : list B)
    : traced A :=
  match l with
  | [] => tret a
  | x :: l' => a' <~~ f a x ;; tfoldl f a' l'
  end.

(** ** The order-by plan node *)

Abbreviation oid_t := N (only parsing).
Abbreviation BackendPtr := N (only parsing).

(** The data members of [OrderByNode]. *)
Record OrderByNode : Type := mkOrderByNode {
  sort_keys_ : list oid_t;
  descend_flags_ : list bool;
  output_column_ids_ : list oid_t;
  backend_ : BackendPtr
}.

(** [OrderByNode::OrderByNode]: the four arguments initialise the four
    members and the body is empty; no path of it fails. *)
Definition OrderByNode_new (sort_keys : list oid_t) (descend_flags : list bool)
    (output_column_ids : list oid_t) (backend : BackendPtr)
    : result OrderByNode :=
  Ok {| sort_keys_ := sort_keys;
        descend_flags_ := descend_flags;
        output_column_ids_ := output_column_ids;
        backend_ := backend |}.

Definition GetBackend (n : OrderByNode) : BackendPtr := backend_ n.
Definition GetSortKeys (n : OrderByNode) : list oid_t := sort_keys_ n.
Definition GetDescendFlags (n : OrderByNode) : list bool := descend_flags_ n.
Definition GetOutputColumnIds (n : OrderByNode) : list oid_t :=
  output_column_ids_ n.

(** ** Sample data

    The example of the specification: one physical tile, at address [100],
    with two columns, viewed through the position list [2, 0, 1]. *)

Definition sample_ops : list BuildOp :=
  [OpAddPositionList [2; 0; 1];
   OpAddColumn 100 true 0 0;
   OpAddColumn 100 true 1 0].

Definition sample_tile : LogicalTile :=
  {| schema_ := [mkColumnPointer 100 0 0; mkColumnPointer 100 1 0];
     position_lists_ := [[2; 0; 1]];
     valid_rows_ := [true; true; true];
     num_tuples_ := 3;
     owned_base_tiles_ := {[ 100 ]} |}.

(** The same tile after a filter has invalidated its second row. *)
Definition sample_filtered : LogicalTile :=
  set_valid_rows [true; false; true] sample_tile.

(** The same tile with every row invalidated. *)
Definition sample_emptied : LogicalTile :=
  set_valid_rows [false; false; false] sample_tile.

(** The same tile with its first two rows invalidated. *)
Definition sample_skipped : LogicalTile :=
  set_valid_rows [false; false; true] sample_tile.

(** The sample tile after a second position list and a column over another
    physical tile, at address [200], have been added. *)
Definition sample_more_ops : list BuildOp :=
  [OpAddPositionList [5; 6; 7]; OpAddColumn 200 true 0 1].

Definition sample_extended : LogicalTile :=
  {| schema_ := [mkColumnPointer 100 0 0; mkColumnPointer 100 1 0;
                 mkColumnPointer 200 0 1];
     position_lists_ := [[2; 0; 1]; [5; 6; 7]];
     valid_rows_ := [true; true; true];
     num_tuples_ := 3;
     owned_base_tiles_ := {[ 200 ]} ∪ {[ 100 ]} |}.

(** A tile that no build phase yields: its only column refers to a position
    list that does not exist. *)
Definition sample_ill_formed : LogicalTile :=
  {| schema_ := [mkColumnPointer 100 0 4];
     position_lists_ := [[2; 0; 1]];
     valid_rows_ := [true; true; true];
     num_tuples_ := 3;
     owned_base_tiles_ := ∅ |}.

(** A 64-bit [id_t] with its largest value as the sentinel, numbers as
    values, with [0] as the invalid value, and physical tiles whose cells
    and tuples encode their own coordinates. *)
Definition sample_INVALID_ID : N := 18446744073709551615.
Definition sample_GetInvalidValue : N := 0.
Definition sample_GetValue (tile row col : N) : N :=
  tile * 10000 + row * 100 + col + 1.
Definition sample_GetTuple (tile row : N) : N := tile * 10000 + row + 1.

Section Engine.

(** What the sources at hand use without defining it: the sentinel
    [INVALID_ID] of [common/types.h], the values of [common/value.h] with
    [ValueFactory::GetInvalidValue()], and the two accessors of
    [storage::Tile]. *)
Variable INVALID_ID : id_t.
Variable Value : Type.
Variable GetInvalidValue : Value.
Variable Tile_GetValue : TilePtr -> id_t -> id_t -> Value.
Variable Tile_GetTuple : TilePtr -> id_t -> TuplePtr.

(** [LogicalTile::iterator::iterator(tile, begin)]; [t] is the tile at
    address [tile]. *)
Definition iterator_new (fuel : nat) (tile : LogicalTilePtr) (t : LogicalTile)
    (begin : bool) : result iterator :=
  if negb begin then Ok {| pos_ := INVALID_ID; tile_ := tile |}
  else
    pos <~ find_first_valid fuel (valid_rows_ t) 0 ;;
    let pos := if pos =? vec_size (valid_rows_ t) then INVALID_ID else pos in
    Ok {| pos_ := pos; tile_ := tile |}.

(** [LogicalTile::begin] and [LogicalTile::end], called on the tile [t] at
    address [this]. *)
Definition begin_ (fuel : nat) (this : LogicalTilePtr) (t : LogicalTile)
    : result iterator :=
  iterator_new fuel this t true.

Definition end_ (fuel : nat) (this : LogicalTilePtr) (t : LogicalTile)
    : result iterator :=
  iterator_new fuel this t false.

(** [LogicalTile::iterator::operator++()]; [t] is the tile [tile_] points
    to. *)
Definition iterator_incr (fuel : nat) (t : LogicalTile) (it : iterator)
    : result iterator :=
  pos <~ find_next_valid fuel (valid_rows_ t) (pos_ it) ;;
  let pos := if pos =? vec_size (valid_rows_ t) then INVALID_ID else pos in
  Ok {| pos_ := pos; tile_ := tile_ it |}.

(** [LogicalTile::iterator::operator++(int)]: the copy of the iterator that
    is returned, and the iterator after the call. *)
Definition iterator_post_incr (fuel : nat) (t : LogicalTile) (it : iterator)
    : result (iterator * iterator) :=
  let tmp := it in
  it' <~ iterator_incr fuel t it ;;
  Ok (tmp, it').

(** [operator==], [operator!=] and [operator*] of the iterator. *)
Definition iterator_eq (it rhs : iterator) : bool :=
  (pos_ it =? pos_ rhs) && (tile_ it =? tile_ rhs).

Definition iterator_neq (it rhs : iterator) : bool :=
  negb (pos_ it =? pos_ rhs) || negb (tile_ it =? tile_ rhs).

Definition iterator_deref (it : iterator) : id_t := pos_ it.

(** The loop [for (it = begin(); it != end(); ++it)] collecting [*it]. *)
Fixpoint loop_to_end (fuel : nat) (t : LogicalTile) (it last : iterator)
    : result (list id_t) :=
  match fuel with
  | O => OutOfFuel
  | S fuel' =>
      if iterator_neq it last then
        let row := iterator_deref it in
        it' <~ iterator_incr (S fuel') t it ;;
        rows <~ loop_to_end fuel' t it' last ;;
        Ok (row :: rows)
      else Ok []
  end.

Definition iterate (fuel : nat) (this : LogicalTilePtr) (t : LogicalTile)
    : result (list id_t) :=
  first <~ begin_ fuel this t ;;
  last <~ end_ fuel this t ;;
  loop_to_end fuel t first last.

(** *** Accessors that delegate to physical tiles *)

(** [base_tile->GetValue(row, col)] and [base_tile->GetTuple(row)] *)
Definition call_GetValue (tile : TilePtr) (row col : id_t) : traced Value :=
  (Ok (Tile_GetValue tile row col), [CallGetValue tile row col]).

Definition call_GetTuple (tile : TilePtr) (row : id_t) : traced TuplePtr :=
  (Ok (Tile_GetTuple tile row), [CallGetTuple tile row]).

(** [LogicalTile::GetTuple] *)
Definition GetTuple (t : LogicalTile) (column_id tuple_id : id_t)
    : traced TuplePtr :=
  _ <~~ tassert (column_id <? vec_size (schema_ t)) ;;
  _ <~~ tassert (tuple_id <? vec_size (valid_rows_ t)) ;;
  valid <~~ tlift (vec_at (valid_rows_ t) tuple_id) ;;
  if negb valid then tret NULL
  else
    cp <~~ tlift (vec_at (schema_ t) column_id) ;;
    position_list <~~ tlift (vec_at (position_lists_ t) (position_list_idx cp)) ;;
    base_tuple_id <~~ tlift (vec_at position_list tuple_id) ;;
    call_GetTuple (base_tile cp) base_tuple_id.

(** [LogicalTile::GetValue] *)
Definition GetValue (t : LogicalTile) (column_id tuple_id : id_t)
    : traced Value :=
  _ <~~ tassert (column_id <? vec_size (schema_ t)) ;;
  _ <~~ tassert (tuple_id <? vec_size (valid_rows_ t)) ;;
  valid <~~ tlift (vec_at (valid_rows_ t) tuple_id) ;;
  if negb valid then tret GetInvalidValue
  else
    cp <~~ tlift (vec_at (schema_ t) column_id) ;;
    position_list <~~ tlift (vec_at (position_lists_ t) (position_list_idx cp)) ;;
    base_tuple_id <~~ tlift (vec_at position_list tuple_id) ;;
    call_GetValue (base_tile cp) base_tuple_id (origin_column_id cp).


(** ** The materialization executor

    Only [materialization_executor.h] is at hand: the definitions of its
    member functions are modelled below. *)

(** Modelled from the spec: the destination [storage::Tile], which is
    missing; it is "a concrete Physical Tile" allocated for a number of rows,
    whose cells are written one value at a time. *)
Record DestTile : Type := mkDestTile {
  dest_num_rows : N;
  dest_cells : gmap (N * N) Value
}.

Definition DestTile_new (num_rows : N) : DestTile :=
  {| dest_num_rows := num_rows; dest_cells := ∅ |}.

Definition DestTile_SetValue (d : DestTile) (v : Value) (row col : id_t)
    : DestTile :=
  {| dest_num_rows := dest_num_rows d;
     dest_cells := <[(row, col) := v]> (dest_cells d) |}.

(** Modelled from the spec: [MaterializationExecutor::GenerateTileToColMap],
    of which only the declaration is present; it is to "partition the
    requested output columns by the Physical Tile each resolves to". *)
Definition GenerateTileToColMap (old_to_new_cols : gmap N N)
    (source_tile : LogicalTile) (tile_to_cols : gmap N (list id_t))
    : result (gmap N (list id_t)) :=
  rfoldl (fun m kv =>
            let col := fst kv in
            base <~ GetBaseTile source_tile col ;;
            Ok (<[base := default [] (m !! base) ++ [col]]> m))
         tile_to_cols (map_to_list old_to_new_cols).

(** Modelled from the spec: the copy of one value into the next free row
    of the destination, and of one column, "for every logical row in the
    current (possibly filtered) row order". *)
Definition copy_value (source_tile : LogicalTile) (old_col_id new_col_id : id_t)
    (st : DestTile * id_t) (old_tuple_id : id_t) : traced (DestTile * id_t) :=
  let dest := fst st in
  let new_tuple_id := snd st in
  v <~~ GetValue source_tile old_col_id old_tuple_id ;;
  tret (DestTile_SetValue dest v new_tuple_id new_col_id, new_tuple_id + 1).

Definition copy_column (fuel : nat) (this : LogicalTilePtr)
    (source_tile : LogicalTile) (old_col_id new_col_id : id_t) (dest : DestTile)
    : traced DestTile :=
  rows <~~ tlift (iterate fuel this source_tile) ;;
  st <~~ tfoldl (copy_value source_tile old_col_id new_col_id) (dest, 0) rows ;;
  tret (fst st).

(** Modelled from the spec: the new id of a column is looked up in the
    old-to-new mapping; a column without an entry is a contract
    violation. *)
Definition materialize_column (fuel : nat) (this : LogicalTilePtr)
    (source_tile : LogicalTile) (old_to_new_cols : gmap N N) (dest : DestTile)
    (old_col_id : id_t) : traced DestTile :=
  new_col_id <~~ tlift (match old_to_new_cols !! old_col_id with
                        | Some n => Ok n
                        | None => AssertionFailed
                        end) ;;
  copy_column fuel this source_tile old_col_id new_col_id dest.

(** Modelled from the spec: [MaterializationExecutor::MaterializeByTiles],
    of which only the declaration is present: "for each partition, [...]
    copy [...] the values of the required columns from the source". *)
Definition MaterializeByTiles (fuel : nat) (this : LogicalTilePtr)
    (source_tile : LogicalTile) (old_to_new_cols : gmap N N)
    (tile_to_cols : gmap N (list id_t)) (dest_tile : DestTile)
    : traced DestTile :=
  tfoldl (fun dest kv =>
            tfoldl (materialize_column fuel this source_tile old_to_new_cols)
                   dest (snd kv))
         dest_tile (map_to_list tile_to_cols).

(** Modelled from the spec: [MaterializationExecutor::DExecute], of which
    only the declaration is present.  [child_output] is the next logical
    tile of the child stage with its address, if there is one; the result
    is [None] on exhaustion of the stream and the emitted physical tile
    otherwise, allocated with one row for each visible row of the input. *)
Definition DExecute (fuel : nat)
    (child_output : option (LogicalTilePtr * LogicalTile))
    (old_to_new_cols : gmap N N) : traced (option DestTile) :=
  match child_output with
  | None => tret None
  | Some (this, source_tile) =>
      tile_to_cols <~~
        tlift (GenerateTileToColMap old_to_new_cols source_tile ∅) ;;
      rows <~~ tlift (iterate fuel this source_tile) ;;
      dest <~~ MaterializeByTiles fuel this source_tile old_to_new_cols
                 tile_to_cols (DestTile_new (vec_size rows)) ;;
      tret (Some dest)
  end.

(** ** Specification-side notions *)

(** The row ids at which a validity bitmap holds [true], in ascending
    order; [i] is the id of the first entry. *)
Fixpoint valid_ids_from (i : id_t) (valid_rows : list bool) : list id_t :=
  match valid_rows with
  | [] => []
  | b :: v => if b then i :: valid_ids_from (i + 1) v
              else valid_ids_from (i + 1) v
  end.

Definition valid_ids (valid_rows : list bool) : list id_t :=
  valid_ids_from 0 valid_rows.

(** The state a tile is in after its build phase: every column refers to a
    position list that exists, and every position list has one entry for
    each row. *)
Definition well_formed (t : LogicalTile) : Prop :=
  Forall (fun cp => position_list_idx cp < vec_size (position_lists_ t))
         (schema_ t)
  ∧ Forall (fun l : list id_t => length l = length (valid_rows_ t))
           (position_lists_ t)
  ∧ (position_lists_ t ≠ [] -> vec_size (valid_rows_ t) = num_tuples_ t)
  ∧ (position_lists_ t = [] -> valid_rows_ t = [] ∧ schema_ t = []).

(** The physical cell a logical cell resolves to: base tile, physical row
    and physical column. *)
Definition resolve (t : LogicalTile) (column_id tuple_id : id_t)
    : option (TilePtr * id_t * id_t) :=
  match schema_ t !! N.to_nat column_id with
  | Some cp =>
      match position_lists_ t !! N.to_nat (position_list_idx cp) with
      | Some l =>
          match l !! N.to_nat tuple_id with
          | Some row => Some (base_tile cp, row, origin_column_id cp)
          | None => None
          end
      | None => None
      end
  | None => None
  end.

(** The value of the physical cell a logical cell resolves to. *)
Definition phys_value (t : LogicalTile) (column_id tuple_id : id_t) : Value :=
  match resolve t column_id tuple_id with
  | Some (base, row, col) => Tile_GetValue base row col
  | None => GetInvalidValue
  end.

(** Among the columns [cols], copied in this order, the one whose values
    column [k] of the destination holds in the end: the last one mapped to
    [k]. *)
Definition writer_of (old_to_new_cols : gmap N N) (cols : list id_t) (k : id_t)
    : option id_t :=
  last (filter (fun c => old_to_new_cols !! c = Some k) cols).

(** The cell at row [i] and column [k] after the columns [cols] were copied
    for the rows [rows] over the cells [cells]. *)
Definition written (t : LogicalTile) (old_to_new_cols : gmap N N)
    (rows cols : list id_t) (cells : gmap (N * N) Value) (i k : id_t)
    : option Value :=
  match writer_of old_to_new_cols cols k, rows !! N.to_nat i with
  | Some c, Some r => Some (phys_value t c r)
  | _, _ => cells !! (i, k)
  end.

(** C7 as the specification states it: a configuration whose two sequences
    differ in length is rejected. *)
Definition rejects_mismatched_lengths : Prop :=
  forall (sort_keys : list oid_t) (descend_flags : list bool)
         (output_column_ids : list oid_t) (backend : BackendPtr),
    length sort_keys <> length descend_flags ->
    is_ok (OrderByNode_new sort_keys descend_flags output_column_ids backend)
    = false.

(** * Properties *)

(** ** Vectors and results *)

Lemma vec_at_Ok {A : Type} (v : list A) (i : N) (a : A) :
  vec_at v i = Ok a <-> v !! N.to_nat i = Some a.
Proof.
  unfold vec_at. destruct (v !! N.to_nat i); split; intros H; congruence.
Qed.

Lemma vec_at_in_range {A : Type} (v : list A) (i : N) :
  i < vec_size v -> exists a, vec_at v i = Ok a.
Proof.
  unfold vec_size. intros Hi.
  destruct (lookup_lt_is_Some_2 v (N.to_nat i)) as [a Ha]; [lia|].
  exists a. by apply vec_at_Ok.
Qed.

Lemma vec_size_app {A : Type} (v w : list A) :
  vec_size (v ++ w) = vec_size v + vec_size w.
Proof. unfold vec_size. rewrite length_app. lia. Qed.

Lemma vec_resize_nil {A : Type} (n : N) (x : A) :
  vec_resize [] n x = replicate (N.to_nat n) x.
Proof. unfold vec_resize. rewrite take_nil. simpl. f_equal. lia. Qed.

Lemma rbind_Ok {A B : Type} (m : result A) (k : A -> result B) (b : B) :
  rbind m k = Ok b -> exists a, m = Ok a /\ k a = Ok b.
Proof. destruct m; simpl; intros H; try discriminate. eauto. Qed.

(** ** [AddColumn] *)

Lemma AddColumn_Ok (t : LogicalTile) base own origin idx :
  idx < vec_size (position_lists_ t) ->
  AddColumn t base own origin idx =
    Ok {| schema_ := schema_ t ++ [mkColumnPointer base origin idx];
          position_lists_ := position_lists_ t;
          valid_rows_ := valid_rows_ t;
          num_tuples_ := num_tuples_ t;
          owned_base_tiles_ :=
            if own then {[ base ]} ∪ owned_base_tiles_ t
            else owned_base_tiles_ t |}.
Proof.
  intros Hidx. unfold AddColumn.
  apply N.ltb_lt in Hidx. rewrite Hidx. simpl. by destruct own.
Qed.

Lemma AddColumn_rejects (t : LogicalTile) base own origin idx :
  vec_size (position_lists_ t) <= idx ->
  AddColumn t base own origin idx = AssertionFailed.
Proof.
  intros Hidx. unfold AddColumn.
  apply N.ltb_ge in Hidx. by rewrite Hidx.
Qed.

(** C10. Under its precondition, [AddColumn] succeeds, appends exactly the
    descriptor it was given, so that [NumCols] grows by one and the new last
    descriptor holds the base tile, the origin column id and the
    position-list index passed, and it leaves [num_tuples_], the position
    lists and [valid_rows_] as they were; without [own_base_tile] the set of
    owned tiles is unchanged too. *)
Theorem AddColumn_frame (t : LogicalTile) (base : TilePtr) (own : bool)
    (origin : id_t) (idx : N) :
  idx < vec_size (position_lists_ t) ->
  exists t',
    AddColumn t base own origin idx = Ok t'
    /\ NumCols t' = (NumCols t + 1)%Z
    /\ schema_ t' = schema_ t ++ [mkColumnPointer base origin idx]
    /\ last (schema_ t') = Some (mkColumnPointer base origin idx)
    /\ num_tuples_ t' = num_tuples_ t
    /\ NumTuples t' = NumTuples t
    /\ position_lists_ t' = position_lists_ t
    /\ valid_rows_ t' = valid_rows_ t
    /\ (own = false -> owned_base_tiles_ t' = owned_base_tiles_ t)
    /\ (own = true ->
        owned_base_tiles_ t' = {[ base ]} ∪ owned_base_tiles_ t).
Proof.
  intros Hidx. eexists. split; [by apply AddColumn_Ok|].
  unfold NumCols, NumTuples. simpl. rewrite vec_size_app, last_snoc.
  repeat split; try done.
  - unfold vec_size. simpl. lia.
  - by intros ->.
  - by intros ->.
Qed.

(** ** [AddPositionList] *)

Lemma AddPositionList_first (t : LogicalTile) (l : list id_t) :
  position_lists_ t = [] ->
  AddPositionList t l =
    Ok ({| schema_ := schema_ t;
           position_lists_ := [l];
           valid_rows_ := vec_resize (valid_rows_ t) (vec_size l) true;
           num_tuples_ := vec_size l;
           owned_base_tiles_ := owned_base_tiles_ t |}, 0%Z).
Proof.
  intros Hnil. unfold AddPositionList, same_length_as_first.
  rewrite Hnil. simpl. rewrite Hnil. reflexivity.
Qed.

Lemma AddPositionList_later (t : LogicalTile) (first : list id_t)
    (rest : list (list id_t)) (l : list id_t) :
  position_lists_ t = first :: rest ->
  length l = length first ->
  AddPositionList t l =
    Ok (set_position_lists (position_lists_ t ++ [l]) t,
        Z.of_nat (length (position_lists_ t))).
Proof.
  intros Hpl Hlen. unfold AddPositionList, same_length_as_first.
  rewrite Hpl. unfold vec_size at 1. simpl length.
  replace (N.of_nat (S (length rest)) =? 0) with false
    by (symmetry; apply N.eqb_neq; lia).
  unfold vec_at. simpl.
  replace (vec_size first =? vec_size l) with true
    by (symmetry; apply N.eqb_eq; unfold vec_size; lia).
  simpl.
  replace (N.of_nat (S (length rest)) =? 0) with false
    by (symmetry; apply N.eqb_neq; lia).
  rewrite Hpl, vec_size_app. unfold vec_size. simpl.
  f_equal. f_equal. lia.
Qed.

Lemma AddPositionList_rejects (t : LogicalTile) (first : list id_t)
    (rest : list (list id_t)) (l : list id_t) :
  position_lists_ t = first :: rest ->
  length l <> length first ->
  AddPositionList t l = AssertionFailed.
Proof.
  intros Hpl Hlen. unfold AddPositionList, same_length_as_first.
  rewrite Hpl. unfold vec_size at 1. simpl length.
  replace (N.of_nat (S (length rest)) =? 0) with false
    by (symmetry; apply N.eqb_neq; lia).
  unfold vec_at. simpl.
  replace (vec_size first =? vec_size l) with false
    by (symmetry; apply N.eqb_neq; unfold vec_size; lia).
  reflexivity.
Qed.

(** ** The build phase *)

Lemma build_snoc (t : LogicalTile) (ops : list BuildOp) (op : BuildOp) :
  build t (ops ++ [op]) = (t' <~ build t ops ;; apply_op t' op).
Proof.
  revert t. induction ops as [|o ops IH]; intros t; simpl.
  - by destruct (apply_op t op).
  - destruct (apply_op t o); simpl; auto.
Qed.

Lemma build_prefix (t t2 : LogicalTile) (ops1 ops2 : list BuildOp) :
  build t (ops1 ++ ops2) = Ok t2 ->
  exists t1, build t ops1 = Ok t1 /\ build t1 ops2 = Ok t2.
Proof.
  revert t. induction ops1 as [|o ops1 IH]; intros t; simpl.
  - eauto.
  - intros H. apply rbind_Ok in H as (t' & Ht' & H).
    rewrite Ht'. simpl. by apply IH.
Qed.

Lemma lists_of_snoc (ops : list BuildOp) (op : BuildOp) :
  lists_of (ops ++ [op]) =
    lists_of ops ++ match op with
                    | OpAddPositionList l => [l]
                    | OpAddColumn _ _ _ _ => []
                    end.
Proof. unfold lists_of. rewrite omap_app. by destruct op. Qed.

Lemma cols_of_snoc (ops : list BuildOp) (op : BuildOp) :
  cols_of (ops ++ [op]) =
    cols_of ops ++ match op with
                   | OpAddPositionList _ => []
                   | OpAddColumn b _ c i => [mkColumnPointer b c i]
                   end.
Proof. unfold cols_of. rewrite omap_app. by destruct op. Qed.

(** What a tile holds after a build phase, in terms of the operations. *)
Record built (n0 : id_t) (ops : list BuildOp) (t : LogicalTile) : Prop := {
  built_lists : position_lists_ t = lists_of ops;
  built_cols : schema_ t = cols_of ops;
  built_valid :
    valid_rows_ t = match lists_of ops with
                    | [] => []
                    | l :: _ => replicate (length l) true
                    end;
  built_num :
    num_tuples_ t = match lists_of ops with
                    | [] => n0
                    | l :: _ => vec_size l
                    end;
  built_lengths :
    Forall (fun l : list id_t => length l = length (valid_rows_ t))
           (lists_of ops);
  built_idx :
    Forall (fun cp => position_list_idx cp < vec_size (lists_of ops))
           (cols_of ops);
  built_owned :
    forall p, p ∈ owned_base_tiles_ t <-> passed_owned ops p
}.

Lemma passed_owned_snoc (ops : list BuildOp) (op : BuildOp) (p : TilePtr) :
  passed_owned (ops ++ [op]) p <->
  passed_owned ops p \/ exists c i, op = OpAddColumn p true c i.
Proof.
  unfold passed_owned. setoid_rewrite elem_of_app.
  setoid_rewrite list_elem_of_singleton. split.
  - intros (c & i & [H|H]); [left|right]; eauto.
  - intros [(c & i & H)|(c & i & H)]; exists c, i; auto.
Qed.

Lemma built_new (n0 : id_t) : built n0 [] (LogicalTile_new n0).
Proof.
  split; simpl; try done.
  intros p. split; [set_solver|]. intros (c & i & H). set_solver.
Qed.

Lemma built_AddPositionList (n0 : id_t) (ops : list BuildOp)
    (t t' : LogicalTile) (l : list id_t) (k : Z) :
  built n0 ops t ->
  AddPositionList t l = Ok (t', k) ->
  built n0 (ops ++ [OpAddPositionList l]) t'.
Proof.
  intros [Hl Hc Hv Hn Hlen Hidx Hown] Hadd.
  destruct (position_lists_ t) as [|first rest] eqn:Hpl.
  - rewrite AddPositionList_first in Hadd by done.
    injection Hadd as <- <-.
    rewrite <- Hl in *. rewrite Hv. rewrite vec_resize_nil.
    split; simpl; rewrite ?lists_of_snoc, ?cols_of_snoc, <- ?Hl, ?app_nil_r;
      simpl; try done.
    + f_equal. unfold vec_size. lia.
    + rewrite length_replicate. repeat constructor. unfold vec_size. lia.
    + eapply Forall_impl; [exact Hidx|].
      unfold vec_size. simpl. intros cp Hcp. lia.
    + intros p. rewrite passed_owned_snoc, Hown.
      split; [by left|]. by intros [?|(? & ? & ?)].
  - destruct (decide (length l = length first)) as [Heq|Hne].
    2:{ erewrite AddPositionList_rejects in Hadd by done. done. }
    erewrite AddPositionList_later in Hadd by done.
    injection Hadd as <- <-.
    rewrite <- Hl in *.
    split; simpl; rewrite ?lists_of_snoc, ?cols_of_snoc, <- ?Hl, ?app_nil_r;
      simpl; try done.
    + by rewrite Hpl.
    + apply (Forall_app_2 _ (first :: rest) [l]); [done|].
      repeat constructor. rewrite Heq. by inversion Hlen.
    + eapply Forall_impl; [exact Hidx|].
      unfold vec_size. simpl. intros cp Hcp. rewrite length_app. lia.
    + intros p. rewrite passed_owned_snoc, Hown.
      split; [by left|]. by intros [?|(? & ? & ?)].
Qed.

Lemma built_AddColumn (n0 : id_t) (ops : list BuildOp) (t t' : LogicalTile)
    (b : TilePtr) (own : bool) (c : id_t) (i : N) :
  built n0 ops t ->
  AddColumn t b own c i = Ok t' ->
  built n0 (ops ++ [OpAddColumn b own c i]) t'.
Proof.
  intros [Hl Hc Hv Hn Hlen Hidx Hown] Hadd.
  destruct (decide (i < vec_size (position_lists_ t))) as [Hi|Hi].
  2:{ rewrite AddColumn_rejects in Hadd by lia. done. }
  rewrite AddColumn_Ok in Hadd by done. injection Hadd as <-.
  split; simpl; rewrite ?lists_of_snoc, ?cols_of_snoc, ?app_nil_r; try done.
  - by rewrite Hc.
  - apply Forall_app. split; [done|].
    repeat constructor. simpl. by rewrite <- Hl.
  - intros p. rewrite passed_owned_snoc.
    destruct own; [rewrite elem_of_union, elem_of_singleton|];
      rewrite Hown.
    + split; [intros [->|?]; [right|left]; eauto|].
      intros [?|(? & ? & [= ->])]; auto.
    + split; [by left|]. by intros [?|(? & ? & ?)].
Qed.

Lemma build_built (n0 : id_t) (ops : list BuildOp) (t : LogicalTile) :
  build (LogicalTile_new n0) ops = Ok t -> built n0 ops t.
Proof.
  revert t. induction ops as [|op ops IH] using rev_ind; intros t.
  - simpl. intros [= <-]. apply built_new.
  - rewrite build_snoc. intros H. apply rbind_Ok in H as (t1 & Ht1 & Hop).
    specialize (IH _ Ht1).
    destruct op as [l|b own c i]; simpl in Hop.
    + apply rbind_Ok in Hop as ([t2 k] & Hadd & [= <-]).
      by eapply built_AddPositionList.
    + by eapply built_AddColumn.
Qed.

Lemma build_well_formed (n0 : id_t) (ops : list BuildOp) (t : LogicalTile) :
  build (LogicalTile_new n0) ops = Ok t -> well_formed t.
Proof.
  intros [Hl Hc Hv Hn Hlen Hidx Hown]%build_built.
  unfold well_formed. rewrite Hl, Hc.
  split; [done|]. split; [done|]. split.
  - intros Hne. rewrite Hv, Hn.
    destruct (lists_of ops); [done|].
    unfold vec_size. by rewrite length_replicate.
  - intros Hnil. rewrite Hv, Hnil. split; [done|].
    rewrite Hnil in Hidx. unfold vec_size in Hidx. simpl in Hidx.
    destruct (cols_of ops) as [|cp cs]; [done|].
    inversion Hidx; subst. lia.
Qed.

Lemma to_int_exact (z : Z) : (0 <= z <= INT_MAX)%Z -> to_int z = z.
Proof.
  unfold to_int, INT_MAX. intros Hz.
  rewrite Z.mod_small by lia. lia.
Qed.

(** C3. After a build phase whose first position list has at most [INT_MAX]
    entries, [NumTuples()] is the length of that list, also as the [int] the
    source returns; whatever the lengths, the lists stored are the lists
    passed, each as it was passed, and a further call of [AddPositionList]
    with a list of another length fails its assertion, so that the build
    phase fails. *)
Theorem NumTuples_first_position_list (n0 : id_t) (ops : list BuildOp)
    (t : LogicalTile) (first : list id_t) :
  build (LogicalTile_new n0) ops = Ok t ->
  head (lists_of ops) = Some first ->
  ((Z.of_nat (length first) <= INT_MAX)%Z ->
   NumTuples t = Z.of_nat (length first)
   /\ to_int (NumTuples t) = Z.of_nat (length first))
  /\ position_lists_ t = lists_of ops
  /\ Forall (fun l : list id_t => length l = length first) (position_lists_ t)
  /\ forall l : list id_t,
       length l <> length first ->
       AddPositionList t l = AssertionFailed
       /\ build (LogicalTile_new n0) (ops ++ [OpAddPositionList l])
          = AssertionFailed.
Proof.
  intros Hbuild Hfirst.
  destruct (build_built _ _ _ Hbuild) as [Hl Hc Hv Hn Hlen Hidx Hown].
  destruct (lists_of ops) as [|l0 rest] eqn:Hops; [done|].
  injection Hfirst as ->.
  rewrite Hv, length_replicate in Hlen.
  assert (Hnum : NumTuples t = Z.of_nat (length first)).
  { unfold NumTuples. rewrite Hn. unfold vec_size. lia. }
  split; [|split; [done|split; [by rewrite Hl|]]].
  - intros Hbound. split; [done|]. rewrite Hnum. apply to_int_exact. lia.
  - intros l Hne. split.
    + by eapply AddPositionList_rejects.
    + rewrite build_snoc, Hbuild. simpl.
      by erewrite AddPositionList_rejects.
Qed.

Lemma build_starts_with_list (n0 : id_t) (ops : list BuildOp)
    (t : LogicalTile) :
  build (LogicalTile_new n0) ops = Ok t -> ops <> [] -> lists_of ops <> [].
Proof.
  intros Hbuild Hne.
  destruct ops as [|[l|b own c i] ops']; [done|done|].
  simpl in Hbuild. rewrite AddColumn_rejects in Hbuild; [done|].
  unfold vec_size. simpl. lia.
Qed.

(** C8. After every operation of a build phase the bitmap [valid_rows_] has
    [num_tuples_] entries, and immediately after the first call of
    [AddPositionList] each of them is [true].  The operations are those of
    any sequence that succeeds, which is so when all lists have the same
    length and every column refers to a list added before it. *)
Theorem valid_rows_length_invariant (n0 : id_t) (ops : list BuildOp)
    (t : LogicalTile) :
  build (LogicalTile_new n0) ops = Ok t ->
  (forall pre post : list BuildOp,
     ops = pre ++ post ->
     pre <> [] ->
     exists t1 : LogicalTile,
       build (LogicalTile_new n0) pre = Ok t1
       /\ vec_size (valid_rows_ t1) = num_tuples_ t1)
  /\ (forall (pre post : list BuildOp) (l : list id_t),
        ops = pre ++ OpAddPositionList l :: post ->
        lists_of pre = [] ->
        exists t1 : LogicalTile,
          build (LogicalTile_new n0) (pre ++ [OpAddPositionList l]) = Ok t1
          /\ valid_rows_ t1 = replicate (length l) true).
Proof.
  intros Hbuild. split.
  - intros pre post -> Hne.
    destruct (build_prefix _ _ _ _ Hbuild) as (t1 & Hpre & _).
    exists t1. split; [done|].
    pose proof (build_starts_with_list _ _ _ Hpre Hne) as Hlists.
    destruct (build_built _ _ _ Hpre) as [Hl Hc Hv Hn Hlen Hidx Hown].
    rewrite Hv, Hn. destruct (lists_of pre); [done|].
    unfold vec_size. by rewrite length_replicate.
  - intros pre post l -> Hpre.
    change (pre ++ OpAddPositionList l :: post)
      with (pre ++ [OpAddPositionList l] ++ post) in Hbuild.
    rewrite app_assoc in Hbuild.
    destruct (build_prefix _ _ _ _ Hbuild) as (t1 & Hfirst & _).
    exists t1. split; [done|].
    destruct (build_built _ _ _ Hfirst) as [Hl Hc Hv Hn Hlen Hidx Hown].
    by rewrite Hv, lists_of_snoc, Hpre.
Qed.

(** ** The accessors *)

Lemma GetValue_valid (t : LogicalTile) (c r : id_t) (cp : ColumnPointer)
    (l : list id_t) (row : id_t) :
  schema_ t !! N.to_nat c = Some cp ->
  position_lists_ t !! N.to_nat (position_list_idx cp) = Some l ->
  l !! N.to_nat r = Some row ->
  valid_rows_ t !! N.to_nat r = Some true ->
  GetValue t c r =
    (Ok (Tile_GetValue (base_tile cp) row (origin_column_id cp)),
     [CallGetValue (base_tile cp) row (origin_column_id cp)]).
Proof.
  intros Hcp Hl Hrow Hv. unfold GetValue, vec_at.
  assert (Hc : (c <? vec_size (schema_ t)) = true).
  { apply N.ltb_lt. apply lookup_lt_Some in Hcp. unfold vec_size. lia. }
  assert (Hr : (r <? vec_size (valid_rows_ t)) = true).
  { apply N.ltb_lt. apply lookup_lt_Some in Hv. unfold vec_size. lia. }
  rewrite Hc, Hr, Hv, Hcp. cbn. rewrite Hl. cbn. rewrite Hrow. done.
Qed.

Lemma GetTuple_valid (t : LogicalTile) (c r : id_t) (cp : ColumnPointer)
    (l : list id_t) (row : id_t) :
  schema_ t !! N.to_nat c = Some cp ->
  position_lists_ t !! N.to_nat (position_list_idx cp) = Some l ->
  l !! N.to_nat r = Some row ->
  valid_rows_ t !! N.to_nat r = Some true ->
  GetTuple t c r =
    (Ok (Tile_GetTuple (base_tile cp) row), [CallGetTuple (base_tile cp) row]).
Proof.
  intros Hcp Hl Hrow Hv. unfold GetTuple, vec_at.
  assert (Hc : (c <? vec_size (schema_ t)) = true).
  { apply N.ltb_lt. apply lookup_lt_Some in Hcp. unfold vec_size. lia. }
  assert (Hr : (r <? vec_size (valid_rows_ t)) = true).
  { apply N.ltb_lt. apply lookup_lt_Some in Hv. unfold vec_size. lia. }
  rewrite Hc, Hr, Hv, Hcp. cbn. rewrite Hl. cbn. rewrite Hrow. done.
Qed.

Lemma GetValue_invalidated (t : LogicalTile) (c r : id_t) :
  c < vec_size (schema_ t) ->
  valid_rows_ t !! N.to_nat r = Some false ->
  GetValue t c r = (Ok GetInvalidValue, []).
Proof.
  intros Hc Hv. unfold GetValue, vec_at.
  apply N.ltb_lt in Hc.
  assert (Hr : (r <? vec_size (valid_rows_ t)) = true).
  { apply N.ltb_lt. apply lookup_lt_Some in Hv. unfold vec_size. lia. }
  by rewrite Hc, Hr, Hv.
Qed.

Lemma GetTuple_invalidated (t : LogicalTile) (c r : id_t) :
  c < vec_size (schema_ t) ->
  valid_rows_ t !! N.to_nat r = Some false ->
  GetTuple t c r = (Ok NULL, []).
Proof.
  intros Hc Hv. unfold GetTuple, vec_at.
  apply N.ltb_lt in Hc.
  assert (Hr : (r <? vec_size (valid_rows_ t)) = true).
  { apply N.ltb_lt. apply lookup_lt_Some in Hv. unfold vec_size. lia. }
  by rewrite Hc, Hr, Hv.
Qed.

(** In a well-formed tile every cell resolves to a physical cell. *)
Lemma well_formed_resolve (t : LogicalTile) (c r : id_t) :
  well_formed t ->
  c < vec_size (schema_ t) ->
  r < vec_size (valid_rows_ t) ->
  exists cp l row,
    schema_ t !! N.to_nat c = Some cp
    /\ position_lists_ t !! N.to_nat (position_list_idx cp) = Some l
    /\ l !! N.to_nat r = Some row
    /\ resolve t c r = Some (base_tile cp, row, origin_column_id cp).
Proof.
  intros (Hidx & Hlen & _ & _) Hc Hr. unfold vec_size in *.
  destruct (lookup_lt_is_Some_2 (schema_ t) (N.to_nat c)) as [cp Hcp]; [lia|].
  rewrite Forall_lookup in Hidx. specialize (Hidx _ _ Hcp). simpl in Hidx.
  destruct (lookup_lt_is_Some_2 (position_lists_ t)
              (N.to_nat (position_list_idx cp))) as [l Hl]; [lia|].
  rewrite Forall_lookup in Hlen. specialize (Hlen _ _ Hl). simpl in Hlen.
  destruct (lookup_lt_is_Some_2 l (N.to_nat r)) as [row Hrow]; [lia|].
  exists cp, l, row. unfold resolve. by rewrite Hcp, Hl, Hrow.
Qed.

(** A filter that narrows the bitmap leaves the tile well formed. *)
Lemma well_formed_set_valid_rows (t : LogicalTile) (v : list bool) :
  well_formed t ->
  length v = length (valid_rows_ t) ->
  position_lists_ t <> [] ->
  well_formed (set_valid_rows v t).
Proof.
  intros (Hidx & Hlen & Hsz & Hemp) Hv Hne. unfold well_formed. simpl.
  split; [done|]. split; [by rewrite Hv|]. split; [|done].
  intros _. rewrite <- (Hsz Hne). unfold vec_size. by rewrite Hv.
Qed.

(** C1. In a tile as the build phase leaves it, for a column id below
    [NumCols()] and a row id below [NumTuples()], [GetValue] makes one call,
    [GetValue] of the base tile of the column's descriptor, at the row the
    descriptor's position list holds for the row id and at the descriptor's
    origin column, and returns what that call returns. *)
Theorem GetValue_fresh_tile (n0 : id_t) (ops : list BuildOp) (t : LogicalTile)
    (c r : id_t) :
  build (LogicalTile_new n0) ops = Ok t ->
  (Z.of_N c < NumCols t)%Z ->
  (Z.of_N r < NumTuples t)%Z ->
  exists (cp : ColumnPointer) (l : list id_t) (row : id_t),
    schema_ t !! N.to_nat c = Some cp
    /\ position_lists_ t !! N.to_nat (position_list_idx cp) = Some l
    /\ l !! N.to_nat r = Some row
    /\ GetValue t c r =
         (Ok (Tile_GetValue (base_tile cp) row (origin_column_id cp)),
          [CallGetValue (base_tile cp) row (origin_column_id cp)]).
Proof.
  intros Hbuild Hc Hr. unfold NumCols, NumTuples in *.
  pose proof (build_well_formed _ _ _ Hbuild) as Hwf.
  destruct (build_built _ _ _ Hbuild) as [Hl Hc' Hv Hn Hlen Hidx Hown].
  assert (Hc1 : c < vec_size (schema_ t)) by lia.
  assert (Hne : position_lists_ t <> []).
  { intros Hnil. destruct Hwf as (_ & _ & _ & Hemp).
    destruct (Hemp Hnil) as [_ Hs]. rewrite Hs in Hc1.
    unfold vec_size in Hc1. simpl in Hc1. lia. }
  assert (Hr1 : r < vec_size (valid_rows_ t)).
  { destruct Hwf as (_ & _ & Hsz & _). rewrite (Hsz Hne). lia. }
  destruct (well_formed_resolve t c r Hwf Hc1 Hr1)
    as (cp & l & row & Hcp & Hpl & Hrow & _).
  exists cp, l, row. repeat split; try done.
  apply GetValue_valid with l; try done.
  rewrite Hv in Hr1 |- *. rewrite Hl in Hne.
  destruct (lists_of ops) as [|l0 ?]; [done|].
  apply lookup_replicate_2.
  unfold vec_size in Hr1. rewrite length_replicate in Hr1. lia.
Qed.

(** C4. On an invalidated row, for every column id below [NumCols()],
    [GetValue] returns the invalid value and [GetTuple] the null pointer,
    neither calls a physical tile, and neither depends on the schema: any
    other schema with a column of that id gives the same. *)
Theorem accessors_on_invalidated_row (t : LogicalTile) (c r : id_t) :
  (Z.of_N c < NumCols t)%Z ->
  valid_rows_ t !! N.to_nat r = Some false ->
  GetValue t c r = (Ok GetInvalidValue, [])
  /\ GetTuple t c r = (Ok NULL, [])
  /\ forall schema' : list ColumnPointer,
       c < vec_size schema' ->
       GetValue (set_schema schema' t) c r = GetValue t c r
       /\ GetTuple (set_schema schema' t) c r = GetTuple t c r.
Proof.
  intros Hc Hv. unfold NumCols in Hc.
  assert (Hc1 : c < vec_size (schema_ t)) by lia.
  rewrite GetValue_invalidated, GetTuple_invalidated by done.
  repeat split; try done.
  - by apply GetValue_invalidated.
  - by apply GetTuple_invalidated.
Qed.

(** ** The destructor *)

Lemma filter_eq_absent (l : list N) (p : N) :
  p ∉ l -> filter (fun q => q = p) l = [].
Proof.
  induction l as [|q l IH]; intros Hp; [done|].
  apply not_elem_of_cons in Hp as [Hne Hp].
  rewrite filter_cons. destruct (decide (q = p)); [congruence|]. by apply IH.
Qed.

Lemma NoDup_occurs_once (l : list N) (p : N) :
  NoDup l -> p ∈ l -> length (filter (fun q => q = p) l) = 1%nat.
Proof.
  induction l as [|q l IH]; intros Hnd Hp.
  - by apply elem_of_nil in Hp.
  - apply NoDup_cons in Hnd as [Hq Hnd].
    rewrite filter_cons. destruct (decide (q = p)) as [->|Hne].
    + simpl. by rewrite filter_eq_absent.
    + apply IH; [done|]. by apply elem_of_cons in Hp as [->|Hp].
Qed.

(** C5. After a build phase, the destructor hands each base tile that some
    call of [AddColumn] passed with [own_base_tile] set to [delete] exactly
    once, however many columns refer to it, and hands no other pointer to
    [delete]: a base tile only ever passed without [own_base_tile] is not
    released. *)
Theorem destroy_releases_owned_once (n0 : id_t) (ops : list BuildOp)
    (t : LogicalTile) :
  build (LogicalTile_new n0) ops = Ok t ->
  NoDup (LogicalTile_destroy t)
  /\ (forall p : TilePtr,
        passed_owned ops p ->
        length (filter (fun q => q = p) (LogicalTile_destroy t)) = 1%nat)
  /\ (forall p : TilePtr, p ∈ LogicalTile_destroy t -> passed_owned ops p)
  /\ (forall p : TilePtr,
        passed_unowned ops p -> ~ passed_owned ops p ->
        p ∉ LogicalTile_destroy t).
Proof.
  intros Hbuild.
  destruct (build_built _ _ _ Hbuild) as [Hl Hc' Hv Hn Hlen Hidx Hown].
  unfold LogicalTile_destroy.
  assert (Hnd : NoDup (elements (owned_base_tiles_ t))) by apply NoDup_elements.
  repeat split.
  - done.
  - intros p Hp. apply NoDup_occurs_once; [done|].
    by apply elem_of_elements, Hown.
  - intros p Hp. apply Hown. by apply elem_of_elements.
  - intros p _ Hno Hp. apply Hno, Hown. by apply elem_of_elements.
Qed.

(** ** The iterator *)

(** *** The row ids of the valid rows *)

Lemma valid_ids_from_bounds (q : id_t) (w : list bool) (y : id_t) :
  y ∈ valid_ids_from q w -> q <= y < q + vec_size w.
Proof.
  revert q. unfold vec_size.
  induction w as [|b w IH]; intros q; simpl; [by intros ?%elem_of_nil|].
  destruct b.
  - intros [->|Hy%IH]%elem_of_cons; lia.
  - intros Hy%IH. lia.
Qed.

Lemma valid_ids_from_elem (q : id_t) (w : list bool) (y : id_t) :
  y ∈ valid_ids_from q w <->
  q <= y /\ w !! N.to_nat (y - q) = Some true.
Proof.
  revert q. induction w as [|b w IH]; intros q; simpl.
  - rewrite elem_of_nil. split; [done|]. by intros [_ ?].
  - assert (Hstep : q + 1 <= y ->
              (b :: w) !! N.to_nat (y - q) = w !! N.to_nat (y - (q + 1))).
    { intros Hle. replace (N.to_nat (y - q)) with (S (N.to_nat (y - (q + 1))))
        by lia. done. }
    destruct b.
    + rewrite elem_of_cons, IH. split.
      * intros [->|[Hle Hy]].
        -- split; [lia|]. by replace (q - q) with 0 by lia.
        -- split; [lia|]. by rewrite Hstep.
      * intros [Hle Hy]. destruct (decide (y = q)) as [|Hne]; [by left|].
        right. split; [lia|]. rewrite <- Hstep; [done|lia].
    + rewrite IH. split.
      * intros [Hle Hy]. split; [lia|]. by rewrite Hstep.
      * intros [Hle Hy]. destruct (decide (y = q)) as [->|Hne].
        -- by replace (q - q) with 0 in Hy by lia.
        -- split; [lia|]. rewrite <- Hstep; [done|lia].
Qed.

Lemma valid_ids_elem (v : list bool) (r : id_t) :
  r ∈ valid_ids v <-> v !! N.to_nat r = Some true.
Proof.
  unfold valid_ids. rewrite valid_ids_from_elem.
  replace (r - 0) with r by lia. split; [by intros [_ ?]|]. split; [lia|done].
Qed.

Lemma valid_ids_from_sorted (q : id_t) (w : list bool) :
  StronglySorted N.lt (valid_ids_from q w).
Proof.
  revert q. induction w as [|b w IH]; intros q; simpl; [constructor|].
  destruct b; [|apply IH].
  constructor; [apply IH|].
  apply Forall_forall. intros y Hy%valid_ids_from_bounds. lia.
Qed.

Lemma valid_ids_from_NoDup (q : id_t) (w : list bool) :
  NoDup (valid_ids_from q w).
Proof.
  revert q. induction w as [|b w IH]; intros q; simpl; [constructor|].
  destruct b; [|apply IH].
  constructor; [|apply IH].
  intros Hy%valid_ids_from_bounds. lia.
Qed.

Lemma valid_ids_from_all_true (q : id_t) (w : list bool) :
  Forall (fun b => b = true) w ->
  valid_ids_from q w =
    (fun k => q + N.of_nat k) <$> seq 0 (length w).
Proof.
  revert q. induction w as [|b w IH]; intros q Hall; [done|].
  apply Forall_cons in Hall as [-> Hall]. simpl.
  f_equal; [lia|]. rewrite (IH _ Hall), <- fmap_S_seq, <- list_fmap_compose.
  apply list_fmap_ext. intros _ k _. simpl. lia.
Qed.

Lemma valid_ids_from_all_false (q : id_t) (w : list bool) :
  Forall (fun b => b = false) w -> valid_ids_from q w = [].
Proof.
  revert q. induction w as [|b w IH]; intros q Hall; [done|].
  apply Forall_cons in Hall as [-> Hall]. simpl. by apply IH.
Qed.

Lemma valid_ids_from_length (q : id_t) (w : list bool) :
  length (valid_ids_from q w) = length (filter (fun b : bool => b = true) w).
Proof.
  revert q. induction w as [|b w IH]; intros q; [done|].
  simpl. rewrite filter_cons. destruct b.
  - rewrite decide_True by done. simpl. by rewrite IH.
  - rewrite decide_False by done. apply IH.
Qed.

(** The first valid row of a suffix splits the bitmap. *)
Lemma valid_ids_from_head (pre w : list bool) (x : id_t) (rest : list id_t) :
  valid_ids_from (vec_size pre) w = x :: rest ->
  exists pre' w',
    pre ++ w = (pre' ++ [true]) ++ w'
    /\ x = vec_size pre'
    /\ rest = valid_ids_from (vec_size (pre' ++ [true])) w'
    /\ (length w' < length w)%nat.
Proof.
  revert pre. induction w as [|b w IH]; intros pre; simpl; [done|].
  destruct b.
  - intros [= <- <-]. exists pre, w. repeat split; try done.
    + by rewrite <- app_assoc.
    + rewrite vec_size_app. done.
    + lia.
  - intros Hw.
    replace (vec_size pre + 1) with (vec_size (pre ++ [false])) in Hw
      by (rewrite vec_size_app; done).
    destruct (IH _ Hw) as (pre' & w' & Heq & Hx & Hrest & Hlen).
    exists pre', w'. repeat split; try done.
    + rewrite <- Heq. by rewrite <- app_assoc.
    + lia.
Qed.

(** *** The two loops *)

Lemma at_invalid_row_end (v : list bool) :
  at_invalid_row v (vec_size v) = Ok false.
Proof.
  unfold at_invalid_row.
  by replace (vec_size v <? vec_size v) with false
    by (symmetry; apply N.ltb_ge; lia).
Qed.

Lemma at_invalid_row_in (pre : list bool) (b : bool) (w : list bool) :
  at_invalid_row (pre ++ b :: w) (vec_size pre) = Ok (negb b).
Proof.
  unfold at_invalid_row, vec_at.
  replace (vec_size pre <? vec_size (pre ++ b :: w)) with true
    by (symmetry; apply N.ltb_lt; rewrite vec_size_app;
        unfold vec_size; simpl; lia).
  unfold vec_size. rewrite Nat2N.id, list_lookup_middle by done. done.
Qed.

Lemma find_first_valid_spec (w pre : list bool) (fuel : nat) :
  (length w < fuel)%nat ->
  find_first_valid fuel (pre ++ w) (vec_size pre) =
    Ok (default (vec_size (pre ++ w))
                (head (valid_ids_from (vec_size pre) w))).
Proof.
  revert pre fuel. induction w as [|b w IH]; intros pre fuel Hfuel;
    (destruct fuel as [|fuel]; [simpl in Hfuel; lia|]); simpl.
  - rewrite app_nil_r, at_invalid_row_end. done.
  - rewrite at_invalid_row_in. simpl. destruct b; simpl; [done|].
    replace (pre ++ false :: w) with ((pre ++ [false]) ++ w)
      by (by rewrite <- app_assoc).
    replace (vec_size pre + 1) with (vec_size (pre ++ [false]))
      by (rewrite vec_size_app; done).
    apply IH. simpl in Hfuel. lia.
Qed.

Lemma find_next_valid_first (fuel : nat) (v : list bool) (pos : id_t) :
  find_next_valid fuel v pos = find_first_valid fuel v (pos + 1).
Proof.
  revert pos. induction fuel as [|fuel IH]; intros pos; simpl; [done|].
  destruct (at_invalid_row v (pos + 1)) as [[]| | |]; simpl; auto.
Qed.

(** The position an iterator is left at: the next valid row of the rest of
    the bitmap, or the sentinel. *)
Lemma position_or_sentinel (pre w : list bool) :
  vec_size (pre ++ w) <= INVALID_ID ->
  (if default (vec_size (pre ++ w))
              (head (valid_ids_from (vec_size pre) w))
      =? vec_size (pre ++ w)
   then INVALID_ID
   else default (vec_size (pre ++ w))
                (head (valid_ids_from (vec_size pre) w)))
  = default INVALID_ID (head (valid_ids_from (vec_size pre) w)).
Proof.
  intros Hfit.
  destruct (valid_ids_from (vec_size pre) w) as [|x rest] eqn:Hids; simpl.
  - by rewrite N.eqb_refl.
  - assert (Hx : x ∈ valid_ids_from (vec_size pre) w)
      by (rewrite Hids; left).
    apply valid_ids_from_bounds in Hx. rewrite vec_size_app.
    by replace (x =? vec_size pre + vec_size w) with false
      by (symmetry; apply N.eqb_neq; lia).
Qed.

Lemma iterator_incr_spec (fuel : nat) (t : LogicalTile) (pre w : list bool)
    (this : LogicalTilePtr) :
  valid_rows_ t = (pre ++ [true]) ++ w ->
  vec_size (valid_rows_ t) <= INVALID_ID ->
  (length w < fuel)%nat ->
  iterator_incr fuel t {| pos_ := vec_size pre; tile_ := this |} =
    Ok {| pos_ := default INVALID_ID
                    (head (valid_ids_from (vec_size (pre ++ [true])) w));
          tile_ := this |}.
Proof.
  intros Hv Hfit Hfuel. unfold iterator_incr. simpl.
  rewrite find_next_valid_first, Hv.
  replace (vec_size pre + 1) with (vec_size (pre ++ [true]))
    by (rewrite vec_size_app; done).
  rewrite find_first_valid_spec by done. cbn [rbind]. cbv zeta.
  rewrite Hv in Hfit. by rewrite (position_or_sentinel _ _ Hfit).
Qed.

Lemma loop_to_end_spec (fuel : nat) (t : LogicalTile) (pre w : list bool)
    (this : LogicalTilePtr) :
  valid_rows_ t = pre ++ w ->
  vec_size (valid_rows_ t) <= INVALID_ID ->
  (length w < fuel)%nat ->
  loop_to_end fuel t
    {| pos_ := default INVALID_ID (head (valid_ids_from (vec_size pre) w));
       tile_ := this |}
    {| pos_ := INVALID_ID; tile_ := this |}
  = Ok (valid_ids_from (vec_size pre) w).
Proof.
  revert pre w. induction fuel as [|fuel IH]; intros pre w Hv Hfit Hfuel;
    [lia|].
  cbn [loop_to_end]. unfold iterator_neq, iterator_deref. cbn [pos_ tile_].
  rewrite (N.eqb_refl this). simpl negb. rewrite orb_false_r.
  destruct (valid_ids_from (vec_size pre) w) as [|x rest] eqn:Hids.
  - simpl. by rewrite N.eqb_refl.
  - change (default INVALID_ID (head (x :: rest))) with x.
    assert (Hx : x ∈ valid_ids_from (vec_size pre) w)
      by (rewrite Hids; left).
    apply valid_ids_from_bounds in Hx.
    assert (Hsz : vec_size pre + vec_size w <= INVALID_ID)
      by (rewrite Hv, vec_size_app in Hfit; done).
    replace (x =? INVALID_ID) with false
      by (symmetry; apply N.eqb_neq; lia).
    simpl negb. cbv iota.
    destruct (valid_ids_from_head _ _ _ _ Hids)
      as (pre' & w' & Heq & -> & -> & Hlen).
    rewrite Heq in Hv.
    rewrite (iterator_incr_spec (S fuel) t pre' w' this Hv Hfit) by lia.
    simpl rbind.
    rewrite (IH (pre' ++ [true]) w' Hv Hfit) by lia.
    done.
Qed.

Lemma begin_spec (fuel : nat) (this : LogicalTilePtr) (t : LogicalTile) :
  vec_size (valid_rows_ t) <= INVALID_ID ->
  (length (valid_rows_ t) < fuel)%nat ->
  begin_ fuel this t =
    Ok {| pos_ := default INVALID_ID (head (valid_ids (valid_rows_ t)));
          tile_ := this |}.
Proof.
  intros Hfit Hfuel. unfold begin_, iterator_new. simpl negb. cbv iota.
  pose proof (find_first_valid_spec (valid_rows_ t) [] fuel Hfuel) as Hfirst.
  rewrite app_nil_l in Hfirst. change (vec_size []) with 0 in Hfirst.
  rewrite Hfirst. cbn [rbind]. cbv zeta.
  pose proof (position_or_sentinel [] (valid_rows_ t) Hfit) as Hpos.
  rewrite app_nil_l in Hpos. change (vec_size []) with 0 in Hpos.
  unfold valid_ids. by rewrite Hpos.
Qed.

Lemma iterate_spec (fuel : nat) (this : LogicalTilePtr) (t : LogicalTile) :
  vec_size (valid_rows_ t) <= INVALID_ID ->
  (length (valid_rows_ t) < fuel)%nat ->
  iterate fuel this t = Ok (valid_ids (valid_rows_ t)).
Proof.
  intros Hfit Hfuel. unfold iterate.
  rewrite begin_spec by done. simpl.
  apply (loop_to_end_spec fuel t [] (valid_rows_ t) this); done.
Qed.

(** C2. The loop from [begin()] to [end()] terminates and visits exactly
    the row ids at which [valid_rows_] holds [true], in strictly ascending
    order and each once; when every row is valid these are the ids from [0]
    to [N - 1], in this order.  The sentinel [INVALID_ID] is taken not to be
    below the number of rows. *)
Theorem iterate_visits_valid_rows (fuel : nat) (this : LogicalTilePtr)
    (t : LogicalTile) :
  vec_size (valid_rows_ t) <= INVALID_ID ->
  (length (valid_rows_ t) < fuel)%nat ->
  exists rows : list id_t,
    iterate fuel this t = Ok rows
    /\ (forall r : id_t, r ∈ rows <-> valid_rows_ t !! N.to_nat r = Some true)
    /\ StronglySorted N.lt rows
    /\ NoDup rows
    /\ (Forall (fun b => b = true) (valid_rows_ t) ->
        rows = N.of_nat <$> seq 0 (length (valid_rows_ t))).
Proof.
  intros Hfit Hfuel. exists (valid_ids (valid_rows_ t)).
  split; [by apply iterate_spec|].
  split; [apply valid_ids_elem|].
  split; [apply valid_ids_from_sorted|].
  split; [apply valid_ids_from_NoDup|].
  intros Hall. unfold valid_ids. rewrite valid_ids_from_all_true by done.
  apply list_fmap_ext. intros _ k _. lia.
Qed.

(** C9. When no row is valid, in particular when there is no row, [begin()]
    and [end()] are equal: both are at the sentinel [INVALID_ID] and both
    refer to the tile they were called on, [operator==] holds of them,
    [operator!=] does not, and the loop from one to the other visits
    nothing. *)
Theorem begin_is_end_without_valid_row (fuel : nat) (this : LogicalTilePtr)
    (t : LogicalTile) :
  Forall (fun b => b = false) (valid_rows_ t) ->
  (length (valid_rows_ t) < fuel)%nat ->
  exists b e : iterator,
    begin_ fuel this t = Ok b
    /\ end_ fuel this t = Ok e
    /\ pos_ b = INVALID_ID /\ tile_ b = this
    /\ pos_ e = INVALID_ID /\ tile_ e = this
    /\ iterator_eq b e = true
    /\ iterator_neq b e = false
    /\ iterate fuel this t = Ok [].
Proof.
  intros Hall Hfuel.
  assert (Hb : begin_ fuel this t =
                 Ok {| pos_ := INVALID_ID; tile_ := this |}).
  { unfold begin_, iterator_new. simpl negb. cbv iota.
    pose proof (find_first_valid_spec (valid_rows_ t) [] fuel Hfuel) as Hfirst.
    rewrite app_nil_l in Hfirst. change (vec_size []) with 0 in Hfirst.
    rewrite Hfirst, valid_ids_from_all_false by done. simpl.
    by rewrite N.eqb_refl. }
  exists {| pos_ := INVALID_ID; tile_ := this |},
         {| pos_ := INVALID_ID; tile_ := this |}.
  unfold iterate. rewrite Hb. unfold end_, iterator_new.
  unfold iterator_eq, iterator_neq. simpl. rewrite !N.eqb_refl.
  repeat split; try done.
  destruct fuel as [|fuel]; [lia|]. simpl.
  unfold iterator_neq. simpl. by rewrite !N.eqb_refl.
Qed.

(** ** The order-by plan node *)

(** C7, as amended. The constructor of [OrderByNode] accepts every
    configuration, whatever the lengths of the sort keys and of the
    descending flags, and the node holds the four arguments unchanged. *)
Theorem OrderByNode_new_accepts (sort_keys : list oid_t)
    (descend_flags : list bool) (output_column_ids : list oid_t)
    (backend : BackendPtr) :
  exists n : OrderByNode,
    OrderByNode_new sort_keys descend_flags output_column_ids backend = Ok n
    /\ GetSortKeys n = sort_keys
    /\ GetDescendFlags n = descend_flags
    /\ GetOutputColumnIds n = output_column_ids
    /\ GetBackend n = backend.
Proof. eexists. by split. Qed.

(** C7 fails as stated: one sort key and no descending flag make a node. *)
Lemma OrderByNode_new_mismatch_accepted :
  length [7] <> length (@nil bool)
  /\ OrderByNode_new [7] [] [0; 1] 1 =
       Ok {| sort_keys_ := [7];
             descend_flags_ := [];
             output_column_ids_ := [0; 1];
             backend_ := 1 |}
  /\ ~ rejects_mismatched_lengths.
Proof.
  split; [done|]. split; [done|].
  intros H. by specialize (H [7] [] [0; 1] 1 ltac:(done)).
Qed.

(** ** The materialization executor *)

Lemma fst_tbind {A B : Type} (m : traced A) (k : A -> traced B) :
  fst (tbind m k) = rbind (fst m) (fun a => fst (k a)).
Proof. unfold tbind. by destruct (fst m). Qed.

Lemma GetValue_phys_value (t : LogicalTile) (c r : id_t) :
  well_formed t ->
  c < vec_size (schema_ t) ->
  valid_rows_ t !! N.to_nat r = Some true ->
  fst (GetValue t c r) = Ok (phys_value t c r).
Proof.
  intros Hwf Hc Hv.
  assert (Hr : r < vec_size (valid_rows_ t)).
  { apply lookup_lt_Some in Hv. unfold vec_size. lia. }
  destruct (well_formed_resolve t c r Hwf Hc Hr)
    as (cp & l & row & Hcp & Hl & Hrow & Hres).
  rewrite (GetValue_valid t c r cp l row) by done.
  unfold phys_value. by rewrite Hres.
Qed.

(** *** One column *)

Lemma copy_value_rows (t : LogicalTile) (old new : id_t) (rs : list id_t)
    (dest : DestTile) (n : id_t) :
  well_formed t ->
  old < vec_size (schema_ t) ->
  Forall (fun r => valid_rows_ t !! N.to_nat r = Some true) rs ->
  exists dest' : DestTile,
    fst (tfoldl (copy_value t old new) (dest, n) rs)
      = Ok (dest', n + vec_size rs)
    /\ dest_num_rows dest' = dest_num_rows dest
    /\ forall i k : id_t,
         dest_cells dest' !! (i, k) =
           if decide (k = new /\ n <= i < n + vec_size rs)
           then phys_value t old <$> rs !! N.to_nat (i - n)
           else dest_cells dest !! (i, k).
Proof.
  intros Hwf Hold. revert dest n.
  induction rs as [|r rs IH]; intros dest n Hrs.
  - exists dest. unfold vec_size. simpl. split; [f_equal; f_equal; lia|].
    split; [done|]. intros i k. case_decide; [lia|done].
  - apply Forall_cons in Hrs as [Hr Hrs].
    destruct (IH (DestTile_SetValue dest (phys_value t old r) n new) (n + 1) Hrs)
      as (dest' & Hfold & Hrows & Hcells).
    exists dest'. split; [|split; [done|]].
    + cbn [tfoldl]. rewrite fst_tbind. unfold copy_value at 1.
      rewrite fst_tbind, GetValue_phys_value by done.
      cbn [rbind tret fst snd]. etrans; [exact Hfold|].
      unfold vec_size. simpl length. f_equal. f_equal. lia.
    + intros i k. rewrite Hcells. unfold vec_size. simpl length.
      cbn [DestTile_SetValue dest_cells].
      destruct (decide (i = n /\ k = new)) as [[-> ->]|Hne].
      * rewrite decide_False by lia. rewrite lookup_insert_eq.
        rewrite decide_True by lia.
        by replace (N.to_nat (n - n)) with 0%nat by lia.
      * rewrite lookup_insert_ne by (intros [= <- <-]; by apply Hne).
        destruct (decide (k = new /\ n + 1 <= i < n + 1 + N.of_nat (length rs)))
          as [[-> Hi]|Hout].
        -- rewrite decide_True by lia.
           by replace (N.to_nat (i - n)) with (S (N.to_nat (i - (n + 1))))
             by lia.
        -- rewrite decide_False; [done|]. intros [-> Hi].
           apply Hout. split; [done|].
           assert (i <> n) by (intros ->; by apply Hne). lia.
Qed.

Lemma valid_ids_valid (v : list bool) :
  Forall (fun r => v !! N.to_nat r = Some true) (valid_ids v).
Proof. apply Forall_forall. intros r. apply valid_ids_elem. Qed.

Lemma copy_column_spec (fuel : nat) (this : LogicalTilePtr) (t : LogicalTile)
    (old new : id_t) (dest : DestTile) :
  well_formed t ->
  vec_size (valid_rows_ t) <= INVALID_ID ->
  (length (valid_rows_ t) < fuel)%nat ->
  old < vec_size (schema_ t) ->
  exists dest' : DestTile,
    fst (copy_column fuel this t old new dest) = Ok dest'
    /\ dest_num_rows dest' = dest_num_rows dest
    /\ forall i k : id_t,
         dest_cells dest' !! (i, k) =
           match valid_ids (valid_rows_ t) !! N.to_nat i with
           | Some r => if decide (k = new) then Some (phys_value t old r)
                       else dest_cells dest !! (i, k)
           | None => dest_cells dest !! (i, k)
           end.
Proof.
  intros Hwf Hfit Hfuel Hold.
  destruct (copy_value_rows t old new (valid_ids (valid_rows_ t)) dest 0
              Hwf Hold (valid_ids_valid _)) as (dest' & Hfold & Hrows & Hcells).
  exists dest'. split; [|split; [done|]].
  - unfold copy_column. rewrite fst_tbind. unfold tlift at 1. cbn [fst].
    rewrite iterate_spec by done. cbn [rbind].
    rewrite fst_tbind.
    by rewrite Hfold.
  - intros i k. rewrite Hcells. replace (i - 0) with i by lia.
    destruct (valid_ids (valid_rows_ t) !! N.to_nat i) as [r|] eqn:Hi.
    + apply lookup_lt_Some in Hi as Hlt. unfold vec_size.
      destruct (decide (k = new)) as [->|Hne].
      * by rewrite decide_True by lia.
      * by rewrite decide_False by (by intros [? _]).
    + apply lookup_ge_None in Hi. unfold vec_size.
      rewrite decide_False; [done|]. lia.
Qed.

(** *** The column a destination column is written from *)

Lemma writer_of_nil (M : gmap N N) (k : id_t) : writer_of M [] k = None.
Proof. done. Qed.

Lemma writer_of_app (M : gmap N N) (cs1 cs2 : list id_t) (k : id_t) :
  writer_of M (cs1 ++ cs2) k =
    match writer_of M cs2 k with
    | Some c => Some c
    | None => writer_of M cs1 k
    end.
Proof. unfold writer_of. by rewrite filter_app, last_app. Qed.

Lemma writer_of_cons (M : gmap N N) (c : id_t) (cs : list id_t) (k : id_t) :
  writer_of M (c :: cs) k =
    match writer_of M cs k with
    | Some c' => Some c'
    | None => if decide (M !! c = Some k) then Some c else None
    end.
Proof.
  change (c :: cs) with ([c] ++ cs).
  rewrite (writer_of_app M [c] cs k). destruct (writer_of M cs k); [done|].
  unfold writer_of. rewrite filter_cons. by case_decide.
Qed.

Lemma writer_of_Some (M : gmap N N) (cs : list id_t) (k c : id_t) :
  writer_of M cs k = Some c -> M !! c = Some k /\ c ∈ cs.
Proof.
  unfold writer_of. intros H%last_Some_elem_of.
  by apply list_elem_of_filter in H.
Qed.

Lemma writer_of_None (M : gmap N N) (cs : list id_t) (k : id_t) :
  writer_of M cs k = None -> forall c, c ∈ cs -> M !! c <> Some k.
Proof.
  unfold writer_of. intros Hnone%last_None c Hc Hk.
  assert (Hin : c ∈ filter (fun c => M !! c = Some k) cs)
    by (by apply list_elem_of_filter).
  rewrite Hnone in Hin. by apply elem_of_nil in Hin.
Qed.

Lemma writer_of_unique (M : gmap N N) (cs : list id_t) (old k : id_t) :
  M !! old = Some k ->
  (forall old', M !! old' = Some k -> old' = old) ->
  old ∈ cs ->
  writer_of M cs k = Some old.
Proof.
  intros Hold Huniq Hin.
  destruct (writer_of M cs k) as [c|] eqn:Hw.
  - apply writer_of_Some in Hw as [Hc _]. f_equal. by apply Huniq.
  - by destruct (writer_of_None _ _ _ Hw old Hin).
Qed.

Lemma written_nil (t : LogicalTile) (M : gmap N N) (rows : list id_t)
    (cells : gmap (N * N) Value) (i k : id_t) :
  written t M rows [] cells i k = cells !! (i, k).
Proof. done. Qed.

Lemma written_app (t : LogicalTile) (M : gmap N N) (rows cs1 cs2 : list id_t)
    (cells cells1 : gmap (N * N) Value) :
  (forall i k, cells1 !! (i, k) = written t M rows cs1 cells i k) ->
  forall i k,
    written t M rows cs2 cells1 i k = written t M rows (cs1 ++ cs2) cells i k.
Proof.
  intros H1 i k. unfold written. rewrite writer_of_app, H1.
  unfold written.
  destruct (writer_of M cs2 k), (writer_of M cs1 k),
    (rows !! N.to_nat i); done.
Qed.

(** *** All columns *)

Lemma materialize_column_spec (fuel : nat) (this : LogicalTilePtr)
    (t : LogicalTile) (M : gmap N N) (dest : DestTile) (c : id_t) :
  well_formed t ->
  vec_size (valid_rows_ t) <= INVALID_ID ->
  (length (valid_rows_ t) < fuel)%nat ->
  is_Some (M !! c) ->
  c < vec_size (schema_ t) ->
  exists dest' : DestTile,
    fst (materialize_column fuel this t M dest c) = Ok dest'
    /\ dest_num_rows dest' = dest_num_rows dest
    /\ forall i k : id_t,
         dest_cells dest' !! (i, k) =
           written t M (valid_ids (valid_rows_ t)) [c] (dest_cells dest) i k.
Proof.
  intros Hwf Hfit Hfuel [new Hnew] Hc.
  destruct (copy_column_spec fuel this t c new dest Hwf Hfit Hfuel Hc)
    as (dest' & Hcopy & Hrows & Hcells).
  exists dest'. split; [|split; [done|]].
  - unfold materialize_column. rewrite fst_tbind. unfold tlift. cbn [fst].
    rewrite Hnew. done.
  - intros i k. rewrite Hcells. unfold written.
    rewrite writer_of_cons, writer_of_nil.
    destruct (valid_ids (valid_rows_ t) !! N.to_nat i) as [r|].
    + destruct (decide (k = new)) as [->|Hne].
      * by rewrite decide_True.
      * rewrite decide_False; [done|]. congruence.
    + by case_decide.
Qed.

Lemma materialize_columns_spec (fuel : nat) (this : LogicalTilePtr)
    (t : LogicalTile) (M : gmap N N) (cs : list id_t) (dest : DestTile) :
  well_formed t ->
  vec_size (valid_rows_ t) <= INVALID_ID ->
  (length (valid_rows_ t) < fuel)%nat ->
  Forall (fun c => is_Some (M !! c) /\ c < vec_size (schema_ t)) cs ->
  exists dest' : DestTile,
    fst (tfoldl (materialize_column fuel this t M) dest cs) = Ok dest'
    /\ dest_num_rows dest' = dest_num_rows dest
    /\ forall i k : id_t,
         dest_cells dest' !! (i, k) =
           written t M (valid_ids (valid_rows_ t)) cs (dest_cells dest) i k.
Proof.
  intros Hwf Hfit Hfuel. revert dest.
  induction cs as [|c cs IH]; intros dest Hcs.
  - exists dest. by repeat split.
  - apply Forall_cons in Hcs as [[HM Hc] Hcs].
    destruct (materialize_column_spec fuel this t M dest c Hwf Hfit Hfuel HM Hc)
      as (dest1 & Hstep & Hrows1 & Hcells1).
    destruct (IH dest1 Hcs) as (dest' & Hfold & Hrows & Hcells).
    exists dest'. split; [|split; [congruence|]].
    + cbn [tfoldl]. rewrite fst_tbind, Hstep. done.
    + intros i k. rewrite Hcells.
      apply (written_app t M _ [c] cs (dest_cells dest)). exact Hcells1.
Qed.

Lemma materialize_tiles_spec (fuel : nat) (this : LogicalTilePtr)
    (t : LogicalTile) (M : gmap N N) (L : list (N * list id_t))
    (dest : DestTile) :
  well_formed t ->
  vec_size (valid_rows_ t) <= INVALID_ID ->
  (length (valid_rows_ t) < fuel)%nat ->
  Forall (fun c => is_Some (M !! c) /\ c < vec_size (schema_ t))
         (concat (snd <$> L)) ->
  exists dest' : DestTile,
    fst (tfoldl (fun dest kv =>
                   tfoldl (materialize_column fuel this t M) dest (snd kv))
                dest L) = Ok dest'
    /\ dest_num_rows dest' = dest_num_rows dest
    /\ forall i k : id_t,
         dest_cells dest' !! (i, k) =
           written t M (valid_ids (valid_rows_ t)) (concat (snd <$> L))
                   (dest_cells dest) i k.
Proof.
  intros Hwf Hfit Hfuel. revert dest.
  induction L as [|[b cs] L IH]; intros dest HL.
  - exists dest. by repeat split.
  - simpl in HL. apply Forall_app in HL as [Hcs HL].
    destruct (materialize_columns_spec fuel this t M cs dest Hwf Hfit Hfuel Hcs)
      as (dest1 & Hstep & Hrows1 & Hcells1).
    destruct (IH dest1 HL) as (dest' & Hfold & Hrows & Hcells).
    exists dest'. split; [|split; [congruence|]].
    + cbn [tfoldl]. rewrite fst_tbind. cbn [snd]. rewrite Hstep. done.
    + intros i k. rewrite Hcells. simpl.
      apply (written_app t M _ cs (concat (snd <$> L)) (dest_cells dest)).
      exact Hcells1.
Qed.

(** *** The partition of the columns *)

Lemma elem_of_concat_snd (L : list (N * list id_t)) (c : id_t) :
  c ∈ concat (snd <$> L) <-> exists b cs, (b, cs) ∈ L /\ c ∈ cs.
Proof.
  induction L as [|[b cs] L IH]; simpl.
  - rewrite elem_of_nil. split; [done|]. intros (b & cs & H & _).
    by apply elem_of_nil in H.
  - rewrite elem_of_app, IH. split.
    + intros [Hc|(b' & cs' & HL & Hc)].
      * exists b, cs. split; [left|done].
      * exists b', cs'. split; [by right|done].
    + intros (b' & cs' & [[= -> ->]|HL]%elem_of_cons & Hc); [by left|].
      right. by exists b', cs'.
Qed.

Lemma GenerateTileToColMap_step (T : gmap N (list id_t)) (base col c : id_t) :
  (exists b cs,
     <[base := default [] (T !! base) ++ [col]]> T !! b = Some cs /\ c ∈ cs)
  <-> (exists b cs, T !! b = Some cs /\ c ∈ cs) \/ c = col.
Proof.
  split.
  - intros (b & cs & Hb & Hc). destruct (decide (base = b)) as [->|Hne].
    + rewrite lookup_insert_eq in Hb. injection Hb as <-.
      apply elem_of_app in Hc as [Hc|Hc%list_elem_of_singleton]; [|by right].
      left. destruct (T !! b) as [cs0|] eqn:HT; simpl in Hc.
      * by exists b, cs0.
      * by apply elem_of_nil in Hc.
    + rewrite lookup_insert_ne in Hb by done. left. by exists b, cs.
  - intros [(b & cs & Hb & Hc)| ->].
    + destruct (decide (base = b)) as [->|Hne].
      * exists b, (cs ++ [col]). rewrite lookup_insert_eq, Hb. simpl.
        split; [done|]. apply elem_of_app. by left.
      * exists b, cs. by rewrite lookup_insert_ne.
    + exists base, (default [] (T !! base) ++ [col]).
      rewrite lookup_insert_eq. split; [done|].
      apply elem_of_app. right. by apply list_elem_of_singleton.
Qed.

Lemma GenerateTileToColMap_fold (t : LogicalTile) (L : list (N * N))
    (T0 : gmap N (list id_t)) :
  Forall (fun kv => fst kv < vec_size (schema_ t)) L ->
  exists T : gmap N (list id_t),
    rfoldl (fun m kv =>
              let col := fst kv in
              base <~ GetBaseTile t col ;;
              Ok (<[base := default [] (m !! base) ++ [col]]> m)) T0 L = Ok T
    /\ forall c,
         (exists b cs, T !! b = Some cs /\ c ∈ cs) <->
         (exists b cs, T0 !! b = Some cs /\ c ∈ cs) \/ c ∈ (fst <$> L).
Proof.
  revert T0. induction L as [|[col new] L IH]; intros T0 HL.
  - exists T0. split; [done|]. intros c. rewrite fmap_nil, elem_of_nil.
    split; [by left|]. by intros [?|?].
  - apply Forall_cons in HL as [Hcol HL]. simpl in Hcol.
    destruct (vec_at_in_range (schema_ t) col Hcol) as [cp Hcp].
    destruct (IH (<[base_tile cp := default [] (T0 !! base_tile cp) ++ [col]]> T0)
                 HL) as (T & Hfold & HT).
    exists T. split.
    + cbn [rfoldl]. unfold GetBaseTile. cbn [fst]. rewrite Hcp. exact Hfold.
    + intros c. rewrite HT, GenerateTileToColMap_step, fmap_cons, elem_of_cons.
      simpl. split; [intros [[?|?]|?]|intros [?|[?|?]]]; auto.
Qed.

Lemma GenerateTileToColMap_spec (M : gmap N N) (t : LogicalTile) :
  (forall old k, M !! old = Some k -> old < vec_size (schema_ t)) ->
  exists T : gmap N (list id_t),
    GenerateTileToColMap M t ∅ = Ok T
    /\ forall c, c ∈ concat (snd <$> map_to_list T) <-> is_Some (M !! c).
Proof.
  intros Hcols.
  destruct (GenerateTileToColMap_fold t (map_to_list M) ∅) as (T & Hfold & HT).
  { apply Forall_forall. intros [old k] Hin%elem_of_map_to_list.
    simpl. by eapply Hcols. }
  exists T. split; [exact Hfold|].
  intros c. rewrite elem_of_concat_snd.
  setoid_rewrite elem_of_map_to_list. rewrite HT. split.
  - intros [(b & cs & Hb & _)|Hc]; [by rewrite lookup_empty in Hb|].
    apply list_elem_of_fmap in Hc as ([old k] & -> & Hin).
    apply elem_of_map_to_list in Hin. by exists k.
  - intros [k Hk]. right. apply list_elem_of_fmap.
    exists (c, k). split; [done|]. by apply elem_of_map_to_list.
Qed.

(** C6. Given a well-formed logical tile and a mapping of columns of that
    tile, the execute phase emits a physical tile with one row for each
    visible row of the input, in the order of the iteration of the input:
    the rows visited are exactly the row ids at which [valid_rows_] holds
    [true], in ascending order, the output has as many rows as there are
    such bits, row [i] of the output is the [i]-th of them, the cells written
    are those of these rows in the columns the mapping maps to, and column
    [k] holds, in row [i], the value [GetValue] gives for the logical column
    mapped to [k] at that visited row, which is the value of the physical
    tile of that column at the row its position list holds. *)
Theorem DExecute_materializes_visible_rows (fuel : nat) (this : LogicalTilePtr)
    (t : LogicalTile) (M : gmap N N) :
  well_formed t ->
  vec_size (valid_rows_ t) <= INVALID_ID ->
  (length (valid_rows_ t) < fuel)%nat ->
  (forall old k, M !! old = Some k -> old < vec_size (schema_ t)) ->
  exists (out : DestTile) (rows : list id_t),
    fst (DExecute fuel (Some (this, t)) M) = Ok (Some out)
    /\ iterate fuel this t = Ok rows
    /\ (forall r : id_t, r ∈ rows <-> valid_rows_ t !! N.to_nat r = Some true)
    /\ StronglySorted N.lt rows
    /\ dest_num_rows out = vec_size rows
    /\ dest_num_rows out
       = vec_size (filter (fun b : bool => b = true) (valid_rows_ t))
    /\ (forall i k : id_t,
          is_Some (dest_cells out !! (i, k)) <->
          i < vec_size rows /\ exists old, M !! old = Some k)
    /\ (forall (old k i r : id_t),
          M !! old = Some k ->
          (forall old', M !! old' = Some k -> old' = old) ->
          rows !! N.to_nat i = Some r ->
          exists (cp : ColumnPointer) (l : list id_t) (row : id_t),
            schema_ t !! N.to_nat old = Some cp
            /\ position_lists_ t !! N.to_nat (position_list_idx cp) = Some l
            /\ l !! N.to_nat r = Some row
            /\ fst (GetValue t old r)
               = Ok (Tile_GetValue (base_tile cp) row (origin_column_id cp))
            /\ dest_cells out !! (i, k)
               = Some (Tile_GetValue (base_tile cp) row
                         (origin_column_id cp))).
Proof.
  intros Hwf Hfit Hfuel Hcols.
  destruct (GenerateTileToColMap_spec M t Hcols) as (T & HT & Hall).
  set (rows := valid_ids (valid_rows_ t)).
  destruct (materialize_tiles_spec fuel this t M (map_to_list T)
              (DestTile_new (vec_size rows)) Hwf Hfit Hfuel)
    as (out & Hout & Hrows & Hcells).
  { apply Forall_forall. intros c Hc%Hall. split; [done|].
    destruct Hc as [k Hk]. by eapply Hcols. }
  exists out, rows.
  split; [|split; [by apply iterate_spec|]].
  { unfold DExecute. rewrite fst_tbind. unfold tlift at 1. cbn [fst].
    rewrite HT. cbn [rbind]. rewrite fst_tbind. unfold tlift at 1. cbn [fst].
    rewrite iterate_spec by done. cbn [rbind].
    unfold MaterializeByTiles. rewrite fst_tbind. fold rows. by rewrite Hout. }
  split; [apply valid_ids_elem|]. split; [apply valid_ids_from_sorted|].
  split; [done|]. split.
  { rewrite Hrows. cbn [DestTile_new dest_num_rows]. unfold vec_size, rows,
      valid_ids. by rewrite valid_ids_from_length. }
  split.
  - intros i k. rewrite Hcells. unfold written. fold rows.
    cbn [DestTile_new dest_cells]. rewrite lookup_empty.
    destruct (writer_of M (concat (snd <$> map_to_list T)) k) as [c|] eqn:Hw.
    + apply writer_of_Some in Hw as [Hc _].
      destruct (rows !! N.to_nat i) as [r|] eqn:Hi.
      * apply lookup_lt_Some in Hi. unfold vec_size.
        split; [|by eauto]. intros _. split; [lia|by exists c].
      * apply lookup_ge_None in Hi. unfold vec_size.
        split; [by intros [? ?]|]. intros [Hlt _]. lia.
    + split; [by intros [? ?]|]. intros [_ [old Hold]].
      destruct (writer_of_None _ _ _ Hw old); [|done].
      apply Hall. by exists k.
  - intros old k i r Hold Huniq Hi.
    assert (Hr : valid_rows_ t !! N.to_nat r = Some true).
    { apply valid_ids_elem. apply list_elem_of_lookup. by exists (N.to_nat i). }
    assert (Hold1 : old < vec_size (schema_ t)) by (by eapply Hcols).
    assert (Hr1 : r < vec_size (valid_rows_ t)).
    { apply lookup_lt_Some in Hr. unfold vec_size. lia. }
    destruct (well_formed_resolve t old r Hwf Hold1 Hr1)
      as (cp & l & row & Hcp & Hl & Hrow & Hres).
    exists cp, l, row. split; [done|]. split; [done|]. split; [done|]. split.
    + by rewrite (GetValue_valid t old r cp l row).
    + rewrite Hcells. unfold written. fold rows.
      rewrite (writer_of_unique M _ old k Hold Huniq), Hi.
      * unfold phys_value. by rewrite Hres.
      * apply Hall. by exists k.
Qed.

(** Without a further tile from the child, the execute phase reports the end
    of the stream and calls no physical tile. *)
Lemma DExecute_exhausted (fuel : nat) (M : gmap N N) :
  DExecute fuel None M = (Ok None, []).
Proof. done. Qed.

(** * Further properties of the logical tile *)

(** ** The build phase, from any state *)

Lemma AddPositionList_inv (t t' : LogicalTile) (l : list id_t) (k : Z) :
  AddPositionList t l = Ok (t', k) ->
  (position_lists_ t = []
   /\ t' = {| schema_ := schema_ t;
              position_lists_ := [l];
              valid_rows_ := vec_resize (valid_rows_ t) (vec_size l) true;
              num_tuples_ := vec_size l;
              owned_base_tiles_ := owned_base_tiles_ t |}
   /\ k = 0%Z)
  \/ (exists first rest,
        position_lists_ t = first :: rest
        /\ length l = length first
        /\ t' = set_position_lists (position_lists_ t ++ [l]) t
        /\ k = Z.of_nat (length (position_lists_ t))).
Proof.
  intros Hadd. destruct (position_lists_ t) as [|first rest] eqn:Hpl.
  - left. rewrite AddPositionList_first in Hadd by done.
    injection Hadd as <- <-. done.
  - right. exists first, rest.
    destruct (decide (length l = length first)) as [Heq|Hne].
    2:{ erewrite AddPositionList_rejects in Hadd by done. done. }
    erewrite AddPositionList_later in Hadd by done.
    injection Hadd as <- <-. by rewrite Hpl.
Qed.

(** X1. The index [AddPositionList] returns is the place of the new list:
    it is the number of lists held before the call, the list is stored
    there, unchanged, and [AddColumn] accepts this index for any column. *)
Theorem AddPositionList_returns_index (t t' : LogicalTile) (l : list id_t)
    (k : Z) :
  AddPositionList t l = Ok (t', k) ->
  k = Z.of_nat (length (position_lists_ t))
  /\ position_lists_ t' = position_lists_ t ++ [l]
  /\ position_lists_ t' !! Z.to_nat k = Some l
  /\ forall (base : TilePtr) (own : bool) (origin : id_t),
       exists t'' : LogicalTile,
         AddColumn t' base own origin (Z.to_N k) = Ok t''
         /\ last (schema_ t'') = Some (mkColumnPointer base origin (Z.to_N k)).
Proof.
  intros Hadd.
  assert (Hk : k = Z.of_nat (length (position_lists_ t))
               /\ position_lists_ t' = position_lists_ t ++ [l]).
  { destruct (AddPositionList_inv _ _ _ _ Hadd)
      as [(Hpl & -> & ->)|(first & rest & Hpl & Hlen & -> & ->)].
    - by rewrite Hpl.
    - done. }
  destruct Hk as [-> Hpl']. split; [done|]. split; [done|].
  rewrite Nat2Z.id. split.
  - rewrite Hpl'. by apply list_lookup_middle.
  - intros base own origin. eexists. split.
    + apply AddColumn_Ok. rewrite Hpl', vec_size_app.
      unfold vec_size. simpl. lia.
    + simpl. by rewrite last_snoc.
Qed.

(** X2. Once a tile holds a position list, [AddPositionList] changes the
    position lists only: the schema, the validity bitmap (bits cleared
    before stay cleared), [num_tuples_] and the owned tiles are as before,
    and the list accepted is as long as the first one. *)
Theorem AddPositionList_later_frame (t t' : LogicalTile) (l : list id_t)
    (k : Z) :
  position_lists_ t <> [] ->
  AddPositionList t l = Ok (t', k) ->
  schema_ t' = schema_ t
  /\ valid_rows_ t' = valid_rows_ t
  /\ num_tuples_ t' = num_tuples_ t
  /\ owned_base_tiles_ t' = owned_base_tiles_ t
  /\ position_lists_ t' = position_lists_ t ++ [l]
  /\ (length <$> head (position_lists_ t)) = Some (length l).
Proof.
  intros Hne Hadd.
  destruct (AddPositionList_inv _ _ _ _ Hadd)
    as [(Hpl & _)|(first & rest & Hpl & Hlen & -> & _)]; [done|].
  rewrite Hpl. simpl. by rewrite Hlen.
Qed.

Lemma is_ok_rbind {A B : Type} (m : result A) (k : A -> result B) :
  is_ok (rbind m k) = match m with Ok a => is_ok (k a) | _ => false end.
Proof. by destruct m. Qed.

Lemma build_accepted_from (t : LogicalTile) (ops : list BuildOp) :
  is_ok (build t ops)
  = accepted (length (position_lists_ t))
             (length <$> head (position_lists_ t)) ops.
Proof.
  revert t. induction ops as [|[l|b own c i] ops IH]; intros t; [done| |].
  - cbn [build apply_op accepted]. rewrite !is_ok_rbind.
    destruct (position_lists_ t) as [|first rest] eqn:Hpl.
    + rewrite AddPositionList_first by done. simpl. by rewrite IH.
    + simpl.
      destruct (decide (length l = length first)) as [Heq|Hne].
      * erewrite AddPositionList_later by done. simpl.
        rewrite IH. simpl. rewrite Hpl. simpl.
        rewrite (proj2 (Nat.eqb_eq _ _) Heq), length_app. simpl.
        f_equal. lia.
      * erewrite AddPositionList_rejects by done.
        by rewrite (proj2 (Nat.eqb_neq _ _) Hne).
  - cbn [build apply_op accepted].
    destruct (decide (i < vec_size (position_lists_ t))) as [Hi|Hi].
    + rewrite AddColumn_Ok by done. simpl. rewrite IH. simpl.
      unfold vec_size in Hi. by rewrite (proj2 (N.ltb_lt _ _) Hi).
    + rewrite AddColumn_rejects by lia. simpl.
      unfold vec_size in Hi. by rewrite (proj2 (N.ltb_ge _ _)) by lia.
Qed.

(** X3. A build phase on a new tile goes through exactly when every column
    refers to a position list added before it and every position list is as
    long as the first one; otherwise it stops at a failed assertion. *)
Theorem build_accepted_iff (n0 : id_t) (ops : list BuildOp) :
  (accepted 0 None ops = true <->
   exists t : LogicalTile, build (LogicalTile_new n0) ops = Ok t)
  /\ (accepted 0 None ops = false ->
      build (LogicalTile_new n0) ops = AssertionFailed).
Proof.
  pose proof (build_accepted_from (LogicalTile_new n0) ops) as Hok.
  simpl in Hok. rewrite <- Hok. split.
  - destruct (build (LogicalTile_new n0) ops) as [t| | |]; simpl;
      split; try done; try (by intros [? ?]). by exists t.
  - assert (Hno : forall t ops, build t ops <> Undefined
                                /\ build t ops <> OutOfFuel).
    { clear. intros t ops. revert t.
      induction ops as [|[l|b own c i] ops IH]; intros t; [done| |].
      - simpl. destruct (position_lists_ t) as [|first rest] eqn:Hpl.
        + rewrite AddPositionList_first by done. apply IH.
        + destruct (decide (length l = length first)).
          * erewrite AddPositionList_later by done. apply IH.
          * by erewrite AddPositionList_rejects by done.
      - simpl. destruct (decide (i < vec_size (position_lists_ t))).
        + rewrite AddColumn_Ok by done. apply IH.
        + by rewrite AddColumn_rejects by lia. }
    destruct (Hno (LogicalTile_new n0) ops) as [Hu Hf].
    by destruct (build (LogicalTile_new n0) ops).
Qed.

Lemma apply_op_extends (t t' : LogicalTile) (op : BuildOp) :
  apply_op t op = Ok t' ->
  schema_ t `prefix_of` schema_ t'
  /\ position_lists_ t `prefix_of` position_lists_ t'
  /\ owned_base_tiles_ t ⊆ owned_base_tiles_ t'
  /\ (position_lists_ t <> [] ->
      valid_rows_ t' = valid_rows_ t /\ num_tuples_ t' = num_tuples_ t).
Proof.
  destruct op as [l|b own c i]; simpl; intros Hop.
  - apply rbind_Ok in Hop as ([t2 k] & Hadd & [= <-]).
    destruct (AddPositionList_inv _ _ _ _ Hadd)
      as [(Hpl & -> & _)|(first & rest & Hpl & Hlen & -> & _)]; simpl.
    + rewrite Hpl. split; [done|]. split; [apply prefix_nil|]. done.
    + split; [done|]. split; [by apply prefix_app_r|]. done.
  - destruct (decide (i < vec_size (position_lists_ t))) as [Hi|Hi].
    2:{ rewrite AddColumn_rejects in Hop by lia. done. }
    rewrite AddColumn_Ok in Hop by done. injection Hop as <-. simpl.
    split; [by apply prefix_app_r|]. split; [done|]. split; [|done].
    destruct own; [apply union_subseteq_r|done].
Qed.

(** X4. The build phase only appends: whatever the state it starts from,
    the schema and the position lists it leaves extend the ones it found, a
    base tile that was owned is still owned, and once there is a position
    list the validity bitmap and [num_tuples_] are never touched again. *)
Theorem build_append_only (t t' : LogicalTile) (ops : list BuildOp) :
  build t ops = Ok t' ->
  schema_ t `prefix_of` schema_ t'
  /\ position_lists_ t `prefix_of` position_lists_ t'
  /\ owned_base_tiles_ t ⊆ owned_base_tiles_ t'
  /\ (position_lists_ t <> [] ->
      valid_rows_ t' = valid_rows_ t
      /\ num_tuples_ t' = num_tuples_ t
      /\ NumTuples t' = NumTuples t).
Proof.
  revert t. induction ops as [|op ops IH]; intros t; simpl.
  - intros [= <-]. by repeat split.
  - intros Hb. apply rbind_Ok in Hb as (t1 & Hop & Hb).
    destruct (apply_op_extends _ _ _ Hop) as (Hs1 & Hp1 & Ho1 & Hv1).
    destruct (IH _ Hb) as (Hs & Hp & Ho & Hv).
    split; [by etrans|]. split; [by etrans|]. split; [by etrans|].
    intros Hne. destruct (Hv1 Hne) as [Hv1' Hn1'].
    assert (Hne1 : position_lists_ t1 <> []).
    { intros Hnil. rewrite Hnil in Hp1. by apply prefix_nil_inv in Hp1. }
    destruct (Hv Hne1) as (Hv' & Hn' & _).
    unfold NumTuples. rewrite Hv', Hn', Hv1', Hn1'. done.
Qed.

(** X5. After a build phase on a new tile every column descriptor refers to
    a position list the tile holds, and every position list has exactly
    [num_tuples_] entries, as has the validity bitmap. *)
Theorem build_keeps_descriptors_in_range (n0 : id_t) (ops : list BuildOp)
    (t : LogicalTile) :
  build (LogicalTile_new n0) ops = Ok t ->
  (forall cp : ColumnPointer,
     cp ∈ schema_ t ->
     exists l : list id_t,
       position_lists_ t !! N.to_nat (position_list_idx cp) = Some l)
  /\ (forall l : list id_t,
        l ∈ position_lists_ t ->
        vec_size l = num_tuples_ t
        /\ vec_size l = vec_size (valid_rows_ t)).
Proof.
  intros Hbuild.
  destruct (build_built _ _ _ Hbuild) as [Hl Hc Hv Hn Hlen Hidx Hown].
  split.
  - intros cp Hcp. rewrite Hc in Hcp. rewrite Forall_forall in Hidx.
    apply Hidx in Hcp. apply lookup_lt_is_Some_2.
    rewrite Hl. unfold vec_size in Hcp. lia.
  - intros l Hin. rewrite Hl in Hin. rewrite Forall_forall in Hlen.
    unfold vec_size. rewrite (Hlen _ Hin). split; [|done].
    rewrite Hv, Hn. destruct (lists_of ops) as [|l0 rest].
    + by apply elem_of_nil in Hin.
    + by rewrite length_replicate.
Qed.

(** X6. Column ids follow the order of the calls: after a build phase
    [NumCols()] is the number of calls of [AddColumn], [GetBaseTile] of a
    column id below it gives the base tile passed to the call of that rank,
    and [GetBaseTile], which carries no assertion, is undefined from
    [NumCols()] on. *)
Theorem columns_in_call_order (n0 : id_t) (ops : list BuildOp)
    (t : LogicalTile) :
  build (LogicalTile_new n0) ops = Ok t ->
  NumCols t = Z.of_nat (length (cols_of ops))
  /\ forall c : id_t,
       GetBaseTile t c =
         match cols_of ops !! N.to_nat c with
         | Some cp => Ok (base_tile cp)
         | None => Undefined
         end.
Proof.
  intros Hbuild.
  destruct (build_built _ _ _ Hbuild) as [Hl Hc Hv Hn Hlen Hidx Hown].
  split.
  - unfold NumCols, vec_size. rewrite Hc. lia.
  - intros c. unfold GetBaseTile, vec_at. rewrite Hc.
    by destruct (cols_of ops !! N.to_nat c).
Qed.

(** ** The accessors, on any tile *)

Lemma accessors_assert_column (t : LogicalTile) (c r : id_t) :
  vec_size (schema_ t) <= c ->
  GetValue t c r = (AssertionFailed, [])
  /\ GetTuple t c r = (AssertionFailed, []).
Proof.
  intros Hc. unfold GetValue, GetTuple, tassert.
  by rewrite (proj2 (N.ltb_ge _ _) Hc).
Qed.

Lemma accessors_assert_row (t : LogicalTile) (c r : id_t) :
  c < vec_size (schema_ t) ->
  vec_size (valid_rows_ t) <= r ->
  GetValue t c r = (AssertionFailed, [])
  /\ GetTuple t c r = (AssertionFailed, []).
Proof.
  intros Hc Hr. unfold GetValue, GetTuple, tassert.
  by rewrite (proj2 (N.ltb_lt _ _) Hc), (proj2 (N.ltb_ge _ _) Hr).
Qed.

(** X7. A column id that is not below [NumCols()], or a row id that is not
    below the number of rows, fails the assertion of [GetValue] and of
    [GetTuple], whatever the validity of the row, before any physical tile
    is called. *)
Theorem accessors_reject_bad_ids (t : LogicalTile) (c r : id_t) :
  (NumCols t <= Z.of_N c)%Z \/ vec_size (valid_rows_ t) <= r ->
  GetValue t c r = (AssertionFailed, [])
  /\ GetTuple t c r = (AssertionFailed, []).
Proof.
  unfold NumCols. intros [Hc|Hr].
  - apply accessors_assert_column. lia.
  - destruct (decide (c < vec_size (schema_ t))) as [Hc|Hc].
    + by apply accessors_assert_row.
    + apply accessors_assert_column. lia.
Qed.

(** X8. On a valid row of a well-formed tile, filtered or not, [GetTuple]
    and [GetValue] address the same physical row, the entry for the row id
    of the position list of the column, in the base tile [GetBaseTile]
    returns for the column; each makes this one call and returns its
    result. *)
Theorem accessors_on_valid_row (t : LogicalTile) (c r : id_t) :
  well_formed t ->
  (Z.of_N c < NumCols t)%Z ->
  valid_rows_ t !! N.to_nat r = Some true ->
  exists (cp : ColumnPointer) (l : list id_t) (row : id_t),
    schema_ t !! N.to_nat c = Some cp
    /\ position_lists_ t !! N.to_nat (position_list_idx cp) = Some l
    /\ l !! N.to_nat r = Some row
    /\ GetBaseTile t c = Ok (base_tile cp)
    /\ GetTuple t c r =
         (Ok (Tile_GetTuple (base_tile cp) row),
          [CallGetTuple (base_tile cp) row])
    /\ GetValue t c r =
         (Ok (Tile_GetValue (base_tile cp) row (origin_column_id cp)),
          [CallGetValue (base_tile cp) row (origin_column_id cp)]).
Proof.
  intros Hwf Hc Hv. unfold NumCols in Hc.
  assert (Hc1 : c < vec_size (schema_ t)) by lia.
  assert (Hr : r < vec_size (valid_rows_ t)).
  { apply lookup_lt_Some in Hv. unfold vec_size. lia. }
  destruct (well_formed_resolve t c r Hwf Hc1 Hr)
    as (cp & l & row & Hcp & Hl & Hrow & _).
  exists cp, l, row. split; [done|]. split; [done|]. split; [done|].
  split; [|split].
  - unfold GetBaseTile, vec_at. by rewrite Hcp.
  - by apply GetTuple_valid with l.
  - by apply GetValue_valid with l.
Qed.

(** X9. On any tile, well formed or not, [GetValue] and [GetTuple] call a
    physical tile at most once, and when they do the row is valid, the tile
    called is the base tile of the column's descriptor and the call's result
    is returned; a call that fails or meets an invalidated row has called no
    physical tile. *)
Theorem accessors_call_at_most_once (t : LogicalTile) (c r : id_t) :
  (snd (GetValue t c r) = []
   \/ exists (cp : ColumnPointer) (row : id_t),
        schema_ t !! N.to_nat c = Some cp
        /\ valid_rows_ t !! N.to_nat r = Some true
        /\ GetValue t c r =
             (Ok (Tile_GetValue (base_tile cp) row (origin_column_id cp)),
              [CallGetValue (base_tile cp) row (origin_column_id cp)]))
  /\ (snd (GetTuple t c r) = []
      \/ exists (cp : ColumnPointer) (row : id_t),
           schema_ t !! N.to_nat c = Some cp
           /\ valid_rows_ t !! N.to_nat r = Some true
           /\ GetTuple t c r =
                (Ok (Tile_GetTuple (base_tile cp) row),
                 [CallGetTuple (base_tile cp) row]))
  /\ (is_ok (fst (GetValue t c r)) = false -> snd (GetValue t c r) = [])
  /\ (is_ok (fst (GetTuple t c r)) = false -> snd (GetTuple t c r) = []).
Proof.
  unfold GetValue, GetTuple, tassert, vec_at.
  destruct (c <? vec_size (schema_ t)); [|by repeat split; left].
  destruct (r <? vec_size (valid_rows_ t)); [|by repeat split; left].
  destruct (valid_rows_ t !! N.to_nat r) as [[]|]; cbn;
    [|by repeat split; left|by repeat split; left].
  destruct (schema_ t !! N.to_nat c) as [cp|]; cbn;
    [|by repeat split; left].
  destruct (position_lists_ t !! N.to_nat (position_list_idx cp)) as [l|]; cbn;
    [|by repeat split; left].
  destruct (l !! N.to_nat r) as [row|]; cbn; [|by repeat split; left].
  split; [right; by exists cp, row|]. split; [right; by exists cp, row|].
  done.
Qed.

(** X10. On a well-formed tile no call of [GetValue] or [GetTuple] reads a
    vector out of its bounds: for all ids the assertions fail, the sentinel
    is returned, or the physical tile is called. *)
Theorem accessors_defined_on_well_formed (t : LogicalTile) (c r : id_t) :
  well_formed t ->
  fst (GetValue t c r) <> Undefined /\ fst (GetTuple t c r) <> Undefined.
Proof.
  intros Hwf.
  destruct (decide (c < vec_size (schema_ t))) as [Hc|Hc].
  2:{ destruct (accessors_assert_column t c r) as [-> ->]; [lia|done]. }
  destruct (valid_rows_ t !! N.to_nat r) as [[]|] eqn:Hv.
  - assert (Hr : r < vec_size (valid_rows_ t)).
    { apply lookup_lt_Some in Hv. unfold vec_size. lia. }
    destruct (well_formed_resolve t c r Hwf Hc Hr)
      as (cp & l & row & Hcp & Hl & Hrow & _).
    by rewrite (GetValue_valid t c r cp l row),
      (GetTuple_valid t c r cp l row).
  - by rewrite GetValue_invalidated, GetTuple_invalidated.
  - apply lookup_ge_None in Hv.
    destruct (accessors_assert_row t c r Hc) as [-> ->]; [|done].
    unfold vec_size. lia.
Qed.

(** ** The iterator, step by step *)

(** X11. [operator==] holds exactly of iterators at the same position of the
    same tile, [operator!=] is its negation, and iterators obtained from
    tiles at different addresses are never equal, not even two past-the-end
    iterators. *)
Theorem iterator_eq_reflects (a b : iterator) :
  (iterator_eq a b = true <-> a = b)
  /\ iterator_neq a b = negb (iterator_eq a b)
  /\ forall (fuel : nat) (this1 this2 : LogicalTilePtr) (t1 t2 : LogicalTile)
            (begin1 begin2 : bool),
       iterator_new fuel this1 t1 begin1 = Ok a ->
       iterator_new fuel this2 t2 begin2 = Ok b ->
       this1 <> this2 ->
       iterator_eq a b = false.
Proof.
  destruct a as [pa ta], b as [pb tb]. unfold iterator_eq, iterator_neq.
  cbn [pos_ tile_]. split; [|split].
  - rewrite andb_true_iff, !N.eqb_eq. split; [by intros [-> ->]|].
    by intros [= -> ->].
  - by rewrite negb_andb.
  - intros fuel this1 this2 t1 t2 begin1 begin2 Ha Hb Hne.
    assert (Hta : ta = this1).
    { unfold iterator_new in Ha. destruct begin1; simpl in Ha.
      - apply rbind_Ok in Ha as (p & _ & [= _ <-]). done.
      - by injection Ha as _ <-. }
    assert (Htb : tb = this2).
    { unfold iterator_new in Hb. destruct begin2; simpl in Hb.
      - apply rbind_Ok in Hb as (p & _ & [= _ <-]). done.
      - by injection Hb as _ <-. }
    subst. rewrite (proj2 (N.eqb_neq this1 this2) Hne). apply andb_false_r.
Qed.

(** The head of an ascending list is its least element. *)
Lemma head_least (l : list N) (r : N) :
  StronglySorted N.lt l ->
  r ∈ l ->
  (forall y, y ∈ l -> r <= y) ->
  head l = Some r.
Proof.
  intros Hsorted Hr Hleast.
  destruct l as [|x rest]; [by apply elem_of_nil in Hr|].
  simpl. f_equal.
  assert (Hx : r <= x) by (apply Hleast; left).
  apply elem_of_cons in Hr as [->|Hr]; [done|].
  apply StronglySorted_inv in Hsorted as [_ Hall].
  rewrite Forall_forall in Hall. specialize (Hall _ Hr). lia.
Qed.

Lemma valid_ids_from_suffix_elem (pre w : list bool) (y : id_t) :
  y ∈ valid_ids_from (vec_size pre) w <->
  vec_size pre <= y /\ (pre ++ w) !! N.to_nat y = Some true.
Proof.
  rewrite valid_ids_from_elem. unfold vec_size.
  split; intros [Hle Hy]; (split; [done|]).
  - rewrite lookup_app_r by lia. rewrite <- Hy. f_equal. lia.
  - rewrite lookup_app_r in Hy by lia. rewrite <- Hy. f_equal. lia.
Qed.

Lemma sentinel_unless_row (pre w : list bool) :
  (if default (vec_size (pre ++ w))
              (head (valid_ids_from (vec_size pre) w))
      =? vec_size (pre ++ w)
   then INVALID_ID
   else default (vec_size (pre ++ w))
                (head (valid_ids_from (vec_size pre) w)))
  = default INVALID_ID (head (valid_ids_from (vec_size pre) w)).
Proof.
  destruct (valid_ids_from (vec_size pre) w) as [|x rest] eqn:Hids; simpl.
  - by rewrite N.eqb_refl.
  - assert (Hx : x ∈ valid_ids_from (vec_size pre) w) by (rewrite Hids; left).
    apply valid_ids_from_bounds in Hx. rewrite vec_size_app.
    by rewrite (proj2 (N.eqb_neq _ _)) by lia.
Qed.

Lemma begin_position (fuel : nat) (this : LogicalTilePtr) (t : LogicalTile) :
  (length (valid_rows_ t) < fuel)%nat ->
  begin_ fuel this t =
    Ok {| pos_ := default INVALID_ID (head (valid_ids (valid_rows_ t)));
          tile_ := this |}.
Proof.
  intros Hfuel. unfold begin_, iterator_new. simpl negb. cbv iota.
  pose proof (find_first_valid_spec (valid_rows_ t) [] fuel Hfuel) as Hfirst.
  rewrite app_nil_l in Hfirst. change (vec_size []) with 0 in Hfirst.
  rewrite Hfirst. cbn [rbind]. cbv zeta.
  pose proof (sentinel_unless_row [] (valid_rows_ t)) as Hpos.
  rewrite app_nil_l in Hpos. change (vec_size []) with 0 in Hpos.
  unfold valid_ids. by rewrite Hpos.
Qed.

(** X12. [begin()] is at the first valid row: at the row id [r] when row
    [r] is valid and no row before it is. *)
Theorem begin_at_first_valid_row (fuel : nat) (this : LogicalTilePtr)
    (t : LogicalTile) (r : id_t) :
  (length (valid_rows_ t) < fuel)%nat ->
  valid_rows_ t !! N.to_nat r = Some true ->
  (forall r' : id_t, r' < r -> valid_rows_ t !! N.to_nat r' <> Some true) ->
  exists b : iterator,
    begin_ fuel this t = Ok b
    /\ iterator_deref b = r
    /\ tile_ b = this.
Proof.
  intros Hfuel Hr Hfirst. eexists. split; [by apply begin_position|].
  split; [|done]. unfold iterator_deref. cbn [pos_].
  rewrite (head_least _ r); [done|apply valid_ids_from_sorted| |].
  - by apply valid_ids_elem.
  - intros y Hy%valid_ids_elem.
    destruct (decide (r <= y)) as [|Hlt]; [done|].
    destruct (Hfirst y); [lia|done].
Qed.

Lemma iterator_incr_position (fuel : nat) (t : LogicalTile) (it : iterator) :
  pos_ it < vec_size (valid_rows_ t) ->
  (length (valid_rows_ t) < fuel)%nat ->
  iterator_incr fuel t it =
    Ok {| pos_ := default INVALID_ID
                    (head (valid_ids_from (pos_ it + 1)
                             (drop (N.to_nat (pos_ it + 1)) (valid_rows_ t))));
          tile_ := tile_ it |}.
Proof.
  intros Hpos Hfuel. unfold iterator_incr. unfold vec_size in Hpos.
  set (pre := take (N.to_nat (pos_ it + 1)) (valid_rows_ t)).
  set (w := drop (N.to_nat (pos_ it + 1)) (valid_rows_ t)).
  assert (Hv : valid_rows_ t = pre ++ w) by (symmetry; apply take_drop).
  assert (Hpre : vec_size pre = pos_ it + 1).
  { unfold vec_size, pre. rewrite length_take. lia. }
  rewrite find_next_valid_first, Hv, <- Hpre.
  rewrite find_first_valid_spec.
  - cbn [rbind]. cbv zeta. by rewrite sentinel_unless_row.
  - unfold w. rewrite length_drop. lia.
Qed.

(** X13. From a position among the rows, [operator++] moves to the next
    valid row after it, and to the sentinel [INVALID_ID] when no valid row
    follows; the tile referred to is kept.  The postfix form leaves the
    iterator at the same place and returns the iterator as it was. *)
Theorem increment_to_next_valid_row (fuel : nat) (t : LogicalTile)
    (it : iterator) :
  pos_ it < vec_size (valid_rows_ t) ->
  (length (valid_rows_ t) < fuel)%nat ->
  exists it' : iterator,
    iterator_incr fuel t it = Ok it'
    /\ iterator_post_incr fuel t it = Ok (it, it')
    /\ tile_ it' = tile_ it
    /\ (forall r : id_t,
          pos_ it < r ->
          valid_rows_ t !! N.to_nat r = Some true ->
          (forall r' : id_t,
             pos_ it < r' < r -> valid_rows_ t !! N.to_nat r' <> Some true) ->
          iterator_deref it' = r)
    /\ ((forall r : id_t,
           pos_ it < r -> valid_rows_ t !! N.to_nat r <> Some true) ->
        pos_ it' = INVALID_ID).
Proof.
  intros Hpos Hfuel.
  pose proof (iterator_incr_position fuel t it Hpos Hfuel) as Hincr.
  unfold vec_size in Hpos.
  set (pre := take (N.to_nat (pos_ it + 1)) (valid_rows_ t)) in *.
  set (w := drop (N.to_nat (pos_ it + 1)) (valid_rows_ t)) in *.
  assert (Hv : valid_rows_ t = pre ++ w) by (symmetry; apply take_drop).
  assert (Hpre : vec_size pre = pos_ it + 1).
  { unfold vec_size, pre. rewrite length_take. lia. }
  assert (Helem : forall y, y ∈ valid_ids_from (pos_ it + 1) w <->
                            pos_ it < y
                            /\ valid_rows_ t !! N.to_nat y = Some true).
  { intros y. rewrite <- Hpre, valid_ids_from_suffix_elem, <- Hv, Hpre.
    split; intros [? ?]; split; try done; lia. }
  eexists. split; [exact Hincr|]. split; [|split; [done|split]].
  - unfold iterator_post_incr. by rewrite Hincr.
  - intros r Hlt Hr Hbetween. unfold iterator_deref. cbn [pos_].
    rewrite (head_least _ r); [done|apply valid_ids_from_sorted| |].
    + by apply Helem.
    + intros y [Hy1 Hy2]%Helem.
      destruct (decide (r <= y)) as [|Hny]; [done|].
      destruct (Hbetween y); [lia|done].
  - intros Hnone. cbn [pos_].
    destruct (valid_ids_from (pos_ it + 1) w) as [|x rest] eqn:Hids; [done|].
    destruct (proj1 (Helem x)) as [Hx1 Hx2]; [left|].
    by destruct (Hnone x).
Qed.

(** X14. The loop from [begin()] to [end()] visits as many rows as the
    validity bitmap holds [true] bits, hence no more than the tile has rows,
    and every row id it yields is below the number of rows. *)
Theorem iterate_count (fuel : nat) (this : LogicalTilePtr) (t : LogicalTile) :
  vec_size (valid_rows_ t) <= INVALID_ID ->
  (length (valid_rows_ t) < fuel)%nat ->
  exists rows : list id_t,
    iterate fuel this t = Ok rows
    /\ length rows
       = length (filter (fun b : bool => b = true) (valid_rows_ t))
    /\ (length rows <= length (valid_rows_ t))%nat
    /\ forall r : id_t, r ∈ rows -> r < vec_size (valid_rows_ t).
Proof.
  intros Hfit Hfuel. exists (valid_ids (valid_rows_ t)).
  split; [by apply iterate_spec|]. unfold valid_ids.
  rewrite valid_ids_from_length. split; [done|]. split.
  - apply length_filter.
  - intros r Hr%valid_ids_from_bounds. lia.
Qed.

(** X15. Every row the loop over a well-formed tile yields can be read: on
    it, for every column id below [NumCols()], [GetValue] and [GetTuple]
    neither fail nor return the sentinel of an invalidated row, but return
    what the one call they make to a physical tile returns. *)
Theorem iterate_rows_are_read (fuel : nat) (this : LogicalTilePtr)
    (t : LogicalTile) :
  well_formed t ->
  vec_size (valid_rows_ t) <= INVALID_ID ->
  (length (valid_rows_ t) < fuel)%nat ->
  exists rows : list id_t,
    iterate fuel this t = Ok rows
    /\ forall r c : id_t,
         r ∈ rows ->
         (Z.of_N c < NumCols t)%Z ->
         exists base row col : id_t,
           GetValue t c r =
             (Ok (Tile_GetValue base row col), [CallGetValue base row col])
           /\ GetTuple t c r =
                (Ok (Tile_GetTuple base row), [CallGetTuple base row]).
Proof.
  intros Hwf Hfit Hfuel. exists (valid_ids (valid_rows_ t)).
  split; [by apply iterate_spec|].
  intros r c Hr%valid_ids_elem Hc. unfold NumCols in Hc.
  assert (Hc1 : c < vec_size (schema_ t)) by lia.
  assert (Hr1 : r < vec_size (valid_rows_ t)).
  { apply lookup_lt_Some in Hr. unfold vec_size. lia. }
  destruct (well_formed_resolve t c r Hwf Hc1 Hr1)
    as (cp & l & row & Hcp & Hl & Hrow & _).
  exists (base_tile cp), row, (origin_column_id cp). split.
  - by apply GetValue_valid with l.
  - by apply GetTuple_valid with l.
Qed.

End Engine.

(** * The properties at the sample data *)

(** The build phase of the sample yields the sample tile; a column that
    refers to a list not yet added, and a list of another length, stop it. *)
Example build_sample : build (LogicalTile_new 0) sample_ops = Ok sample_tile.
Proof. reflexivity. Qed.

Example build_column_before_list :
  build (LogicalTile_new 0) [OpAddColumn 100 true 0 0] = AssertionFailed.
Proof. reflexivity. Qed.

Example build_list_of_other_length :
  build (LogicalTile_new 0) (sample_ops ++ [OpAddPositionList [1; 2]])
  = AssertionFailed.
Proof. reflexivity. Qed.

(** The filtered tile is visited at its rows [0] and [2]; with a sentinel
    that is the id of a row, here [1], the loop would stop at this row. *)
Example iterate_sample_filtered :
  iterate sample_INVALID_ID 4 77 sample_filtered = Ok [0; 2].
Proof. reflexivity. Qed.

Example iterate_sentinel_among_rows : iterate 1 4 77 sample_tile = Ok [0].
Proof. reflexivity. Qed.

(** Logical cell (column 1, row 2) is cell (row 1, column 1) of the physical
    tile; on the invalidated row no physical tile is called. *)
Example GetValue_sample :
  GetValue N sample_GetInvalidValue sample_GetValue sample_tile 1 2
  = (Ok (sample_GetValue 100 1 1), [CallGetValue 100 1 1]).
Proof. reflexivity. Qed.

Example GetValue_sample_filtered :
  GetValue N sample_GetInvalidValue sample_GetValue sample_filtered 1 1
  = (Ok sample_GetInvalidValue, []).
Proof. reflexivity. Qed.

(** A column id that is not below [NumCols()] fails the assertion of the
    accessor, also on an invalidated row. *)
Example GetValue_sample_bad_column :
  GetValue N sample_GetInvalidValue sample_GetValue sample_filtered 2 1
  = (AssertionFailed, []).
Proof. reflexivity. Qed.

(** The tile at address [100], owned through two columns, is deleted
    once. *)
Example destroy_sample : LogicalTile_destroy sample_tile = [100].
Proof. reflexivity. Qed.

(** The example of the specification: keeping the first column only gives
    three rows with the values of the physical rows [2], [0] and [1]. *)
Example DExecute_sample :
  exists out : DestTile N,
    fst (DExecute sample_INVALID_ID N sample_GetInvalidValue sample_GetValue 4
           (Some (77, sample_tile)) {[ 0 := 0 ]}) = Ok (Some out)
    /\ dest_num_rows N out = 3
    /\ dest_cells N out !! (0, 0) = Some (sample_GetValue 100 2 0)
    /\ dest_cells N out !! (1, 0) = Some (sample_GetValue 100 0 0)
    /\ dest_cells N out !! (2, 0) = Some (sample_GetValue 100 1 0)
    /\ size (dest_cells N out) = 3%nat.
Proof. eexists. split; [reflexivity|]. by vm_compute. Qed.

Lemma AddColumn_frame_witness :
  0 < vec_size (position_lists_ sample_tile)
  /\ exists t',
       AddColumn sample_tile 200 false 5 0 = Ok t'
       /\ NumCols t' = (NumCols sample_tile + 1)%Z
       /\ schema_ t' = schema_ sample_tile ++ [mkColumnPointer 200 5 0]
       /\ last (schema_ t') = Some (mkColumnPointer 200 5 0)
       /\ num_tuples_ t' = num_tuples_ sample_tile
       /\ NumTuples t' = NumTuples sample_tile
       /\ position_lists_ t' = position_lists_ sample_tile
       /\ valid_rows_ t' = valid_rows_ sample_tile
       /\ (false = false ->
           owned_base_tiles_ t' = owned_base_tiles_ sample_tile)
       /\ (false = true ->
           owned_base_tiles_ t' = {[ 200 ]} ∪ owned_base_tiles_ sample_tile).
Proof.
  split; [reflexivity|].
  apply (AddColumn_frame sample_tile 200 false 5 0). reflexivity.
Defined.

Lemma NumTuples_first_position_list_witness :
  build (LogicalTile_new 0) sample_ops = Ok sample_tile
  /\ head (lists_of sample_ops) = Some [2; 0; 1]
  /\ (Z.of_nat (length [2; 0; 1]) <= INT_MAX)%Z
  /\ (NumTuples sample_tile = Z.of_nat (length [2; 0; 1])
      /\ to_int (NumTuples sample_tile) = Z.of_nat (length [2; 0; 1]))
  /\ position_lists_ sample_tile = lists_of sample_ops
  /\ Forall (fun l : list N => length l = length [2; 0; 1])
            (position_lists_ sample_tile)
  /\ forall l : list N,
       length l <> length [2; 0; 1] ->
       AddPositionList sample_tile l = AssertionFailed
       /\ build (LogicalTile_new 0) (sample_ops ++ [OpAddPositionList l])
          = AssertionFailed.
Proof.
  assert (Hbound : (Z.of_nat (length [2; 0; 1]) <= INT_MAX)%Z)
    by (vm_compute; discriminate).
  split; [reflexivity|]. split; [reflexivity|]. split; [exact Hbound|].
  destruct (NumTuples_first_position_list 0 sample_ops sample_tile [2; 0; 1])
    as [Hnum Hrest]; [reflexivity|reflexivity|].
  split; [exact (Hnum Hbound)|exact Hrest].
Defined.

(** The conversion to [int] is why there is a bound: at [2^31] rows the
    [int] is negative. *)
Example to_int_wraps : to_int 2147483648 = (-2147483648)%Z.
Proof. reflexivity. Qed.

Lemma valid_rows_length_invariant_witness :
  build (LogicalTile_new 9) sample_ops = Ok sample_tile
  /\ (forall pre post : list BuildOp,
        sample_ops = pre ++ post ->
        pre <> [] ->
        exists t1 : LogicalTile,
          build (LogicalTile_new 9) pre = Ok t1
          /\ vec_size (valid_rows_ t1) = num_tuples_ t1)
  /\ (forall (pre post : list BuildOp) (l : list N),
        sample_ops = pre ++ OpAddPositionList l :: post ->
        lists_of pre = [] ->
        exists t1 : LogicalTile,
          build (LogicalTile_new 9) (pre ++ [OpAddPositionList l]) = Ok t1
          /\ valid_rows_ t1 = replicate (length l) true).
Proof.
  split; [reflexivity|].
  apply (valid_rows_length_invariant 9 sample_ops sample_tile). reflexivity.
Defined.

Lemma GetValue_fresh_tile_witness :
  build (LogicalTile_new 0) sample_ops = Ok sample_tile
  /\ (Z.of_N 1 < NumCols sample_tile)%Z
  /\ (Z.of_N 2 < NumTuples sample_tile)%Z
  /\ exists (cp : ColumnPointer) (l : list N) (row : N),
       schema_ sample_tile !! N.to_nat 1 = Some cp
       /\ position_lists_ sample_tile !! N.to_nat (position_list_idx cp)
          = Some l
       /\ l !! N.to_nat 2 = Some row
       /\ GetValue N sample_GetInvalidValue sample_GetValue sample_tile 1 2 =
            (Ok (sample_GetValue (base_tile cp) row (origin_column_id cp)),
             [CallGetValue (base_tile cp) row (origin_column_id cp)]).
Proof.
  split; [reflexivity|]. split; [reflexivity|]. split; [reflexivity|].
  apply (GetValue_fresh_tile N sample_GetInvalidValue sample_GetValue
           0 sample_ops sample_tile 1 2); reflexivity.
Defined.

Lemma accessors_on_invalidated_row_witness :
  (Z.of_N 0 < NumCols sample_filtered)%Z
  /\ valid_rows_ sample_filtered !! N.to_nat 1 = Some false
  /\ GetValue N sample_GetInvalidValue sample_GetValue sample_filtered 0 1
     = (Ok sample_GetInvalidValue, [])
  /\ GetTuple sample_GetTuple sample_filtered 0 1 = (Ok NULL, [])
  /\ forall schema' : list ColumnPointer,
       0 < vec_size schema' ->
       GetValue N sample_GetInvalidValue sample_GetValue
                (set_schema schema' sample_filtered) 0 1
       = GetValue N sample_GetInvalidValue sample_GetValue sample_filtered 0 1
       /\ GetTuple sample_GetTuple (set_schema schema' sample_filtered) 0 1
          = GetTuple sample_GetTuple sample_filtered 0 1.
Proof.
  split; [reflexivity|]. split; [reflexivity|].
  apply (accessors_on_invalidated_row N sample_GetInvalidValue sample_GetValue
           sample_GetTuple sample_filtered 0 1); reflexivity.
Defined.

Lemma destroy_releases_owned_once_witness :
  build (LogicalTile_new 0) sample_ops = Ok sample_tile
  /\ NoDup (LogicalTile_destroy sample_tile)
  /\ (forall p : N,
        passed_owned sample_ops p ->
        length (filter (fun q => q = p) (LogicalTile_destroy sample_tile))
        = 1%nat)
  /\ (forall p : N,
        p ∈ LogicalTile_destroy sample_tile -> passed_owned sample_ops p)
  /\ (forall p : N,
        passed_unowned sample_ops p -> ~ passed_owned sample_ops p ->
        p ∉ LogicalTile_destroy sample_tile).
Proof.
  split; [reflexivity|].
  apply (destroy_releases_owned_once 0 sample_ops sample_tile). reflexivity.
Defined.

Lemma iterate_visits_valid_rows_witness :
  vec_size (valid_rows_ sample_filtered) <= sample_INVALID_ID
  /\ (length (valid_rows_ sample_filtered) < 4)%nat
  /\ exists rows : list N,
       iterate sample_INVALID_ID 4 77 sample_filtered = Ok rows
       /\ (forall r : N,
             r ∈ rows <-> valid_rows_ sample_filtered !! N.to_nat r = Some true)
       /\ StronglySorted N.lt rows
       /\ NoDup rows
       /\ (Forall (fun b => b = true) (valid_rows_ sample_filtered) ->
           rows = N.of_nat <$> seq 0 (length (valid_rows_ sample_filtered))).
Proof.
  split; [vm_compute; discriminate|]. split; [simpl; lia|].
  apply (iterate_visits_valid_rows sample_INVALID_ID 4 77 sample_filtered).
  - vm_compute. discriminate.
  - simpl. lia.
Defined.

Lemma begin_is_end_without_valid_row_witness :
  Forall (fun b => b = false) (valid_rows_ sample_emptied)
  /\ (length (valid_rows_ sample_emptied) < 4)%nat
  /\ exists b e : iterator,
       begin_ sample_INVALID_ID 4 77 sample_emptied = Ok b
       /\ end_ sample_INVALID_ID 4 77 sample_emptied = Ok e
       /\ pos_ b = sample_INVALID_ID /\ tile_ b = 77
       /\ pos_ e = sample_INVALID_ID /\ tile_ e = 77
       /\ iterator_eq b e = true
       /\ iterator_neq b e = false
       /\ iterate sample_INVALID_ID 4 77 sample_emptied = Ok [].
Proof.
  split; [repeat constructor|]. split; [simpl; lia|].
  apply (begin_is_end_without_valid_row sample_INVALID_ID 4 77 sample_emptied).
  - repeat constructor.
  - simpl. lia.
Defined.

Lemma DExecute_materializes_visible_rows_witness :
  well_formed sample_filtered
  /\ vec_size (valid_rows_ sample_filtered) <= sample_INVALID_ID
  /\ (length (valid_rows_ sample_filtered) < 4)%nat
  /\ (forall old k : N,
        ({[ 0 := 0 ]} : gmap N N) !! old = Some k ->
        old < vec_size (schema_ sample_filtered))
  /\ exists (out : DestTile N) (rows : list N),
       fst (DExecute sample_INVALID_ID N sample_GetInvalidValue sample_GetValue
              4 (Some (77, sample_filtered)) {[ 0 := 0 ]}) = Ok (Some out)
       /\ iterate sample_INVALID_ID 4 77 sample_filtered = Ok rows
       /\ (forall r : N,
             r ∈ rows <-> valid_rows_ sample_filtered !! N.to_nat r = Some true)
       /\ StronglySorted N.lt rows
       /\ dest_num_rows N out = vec_size rows
       /\ dest_num_rows N out
          = vec_size (filter (fun b : bool => b = true)
                             (valid_rows_ sample_filtered))
       /\ (forall i k : N,
             is_Some (dest_cells N out !! (i, k)) <->
             i < vec_size rows
             /\ exists old, ({[ 0 := 0 ]} : gmap N N) !! old = Some k)
       /\ (forall old k i r : N,
             ({[ 0 := 0 ]} : gmap N N) !! old = Some k ->
             (forall old', ({[ 0 := 0 ]} : gmap N N) !! old' = Some k ->
                           old' = old) ->
             rows !! N.to_nat i = Some r ->
             exists (cp : ColumnPointer) (l : list N) (row : N),
               schema_ sample_filtered !! N.to_nat old = Some cp
               /\ position_lists_ sample_filtered
                    !! N.to_nat (position_list_idx cp) = Some l
               /\ l !! N.to_nat r = Some row
               /\ fst (GetValue N sample_GetInvalidValue sample_GetValue
                         sample_filtered old r)
                  = Ok (sample_GetValue (base_tile cp) row
                          (origin_column_id cp))
               /\ dest_cells N out !! (i, k)
                  = Some (sample_GetValue (base_tile cp) row
                            (origin_column_id cp))).
Proof.
  assert (Hwf : well_formed sample_filtered).
  { unfold well_formed. simpl. split; [repeat constructor|].
    split; [repeat constructor|]. split; [reflexivity|discriminate]. }
  assert (Hcols : forall old k : N,
            ({[ 0 := 0 ]} : gmap N N) !! old = Some k ->
            old < vec_size (schema_ sample_filtered)).
  { intros old k [<- _]%lookup_singleton_Some. reflexivity. }
  split; [exact Hwf|]. split; [vm_compute; discriminate|].
  split; [simpl; lia|]. split; [exact Hcols|].
  apply (DExecute_materializes_visible_rows sample_INVALID_ID N
           sample_GetInvalidValue sample_GetValue 4 77 sample_filtered
           {[ 0 := 0 ]} Hwf).
  - vm_compute. discriminate.
  - simpl. lia.
  - exact Hcols.
Defined.

(** On the filtered sample the second row is left out: the output has the
    two rows of the physical rows [2] and [1], in this order. *)
Example DExecute_sample_filtered :
  exists out : DestTile N,
    fst (DExecute sample_INVALID_ID N sample_GetInvalidValue sample_GetValue 4
           (Some (77, sample_filtered)) {[ 0 := 0 ]}) = Ok (Some out)
    /\ dest_num_rows N out = 2
    /\ dest_cells N out !! (0, 0) = Some (sample_GetValue 100 2 0)
    /\ dest_cells N out !! (1, 0) = Some (sample_GetValue 100 1 0)
    /\ size (dest_cells N out) = 2%nat.
Proof. eexists. split; [reflexivity|]. by vm_compute. Qed.

(** * The further properties at the sample data *)

(** On a tile that is not well formed an accessor reads out of bounds,
    where [GetBaseTile] still answers. *)
Example GetValue_ill_formed :
  GetValue N sample_GetInvalidValue sample_GetValue sample_ill_formed 0 0
  = (Undefined, [])
  /\ GetBaseTile sample_ill_formed 0 = Ok 100.
Proof. by split. Qed.

Example build_sample_extended :
  build sample_tile sample_more_ops = Ok sample_extended.
Proof. reflexivity. Qed.

Lemma sample_filtered_well_formed : well_formed sample_filtered.
Proof.
  unfold well_formed. simpl. split; [repeat constructor|].
  split; [repeat constructor|]. split; [reflexivity|discriminate].
Defined.

Lemma AddPositionList_returns_index_witness :
  AddPositionList sample_tile [5; 6; 7]
    = Ok (set_position_lists [[2; 0; 1]; [5; 6; 7]] sample_tile, 1%Z)
  /\ 1%Z = Z.of_nat (length (position_lists_ sample_tile))
  /\ position_lists_ (set_position_lists [[2; 0; 1]; [5; 6; 7]] sample_tile)
     = position_lists_ sample_tile ++ [[5; 6; 7]]
  /\ position_lists_ (set_position_lists [[2; 0; 1]; [5; 6; 7]] sample_tile)
       !! Z.to_nat 1 = Some [5; 6; 7]
  /\ forall (base : N) (own : bool) (origin : N),
       exists t'' : LogicalTile,
         AddColumn (set_position_lists [[2; 0; 1]; [5; 6; 7]] sample_tile)
                   base own origin (Z.to_N 1) = Ok t''
         /\ last (schema_ t'')
            = Some (mkColumnPointer base origin (Z.to_N 1)).
Proof.
  split; [reflexivity|].
  apply (AddPositionList_returns_index sample_tile
           (set_position_lists [[2; 0; 1]; [5; 6; 7]] sample_tile)
           [5; 6; 7] 1%Z).
  reflexivity.
Defined.

Lemma AddPositionList_later_frame_witness :
  position_lists_ sample_filtered <> []
  /\ AddPositionList sample_filtered [5; 6; 7]
     = Ok (set_position_lists [[2; 0; 1]; [5; 6; 7]] sample_filtered, 1%Z)
  /\ schema_ (set_position_lists [[2; 0; 1]; [5; 6; 7]] sample_filtered)
     = schema_ sample_filtered
  /\ valid_rows_ (set_position_lists [[2; 0; 1]; [5; 6; 7]] sample_filtered)
     = valid_rows_ sample_filtered
  /\ num_tuples_ (set_position_lists [[2; 0; 1]; [5; 6; 7]] sample_filtered)
     = num_tuples_ sample_filtered
  /\ owned_base_tiles_
       (set_position_lists [[2; 0; 1]; [5; 6; 7]] sample_filtered)
     = owned_base_tiles_ sample_filtered
  /\ position_lists_
       (set_position_lists [[2; 0; 1]; [5; 6; 7]] sample_filtered)
     = position_lists_ sample_filtered ++ [[5; 6; 7]]
  /\ (length <$> head (position_lists_ sample_filtered))
     = Some (length [5; 6; 7]).
Proof.
  split; [discriminate|]. split; [reflexivity|].
  apply (AddPositionList_later_frame sample_filtered
           (set_position_lists [[2; 0; 1]; [5; 6; 7]] sample_filtered)
           [5; 6; 7] 1%Z).
  - discriminate.
  - reflexivity.
Defined.

Lemma build_append_only_witness :
  build sample_tile sample_more_ops = Ok sample_extended
  /\ schema_ sample_tile `prefix_of` schema_ sample_extended
  /\ position_lists_ sample_tile `prefix_of` position_lists_ sample_extended
  /\ owned_base_tiles_ sample_tile ⊆ owned_base_tiles_ sample_extended
  /\ (position_lists_ sample_tile <> [] ->
      valid_rows_ sample_extended = valid_rows_ sample_tile
      /\ num_tuples_ sample_extended = num_tuples_ sample_tile
      /\ NumTuples sample_extended = NumTuples sample_tile).
Proof.
  split; [reflexivity|].
  apply (build_append_only sample_tile sample_extended sample_more_ops).
  reflexivity.
Defined.

Lemma build_keeps_descriptors_in_range_witness :
  build (LogicalTile_new 0) (sample_ops ++ sample_more_ops)
    = Ok sample_extended
  /\ (forall cp : ColumnPointer,
        cp ∈ schema_ sample_extended ->
        exists l : list N,
          position_lists_ sample_extended !! N.to_nat (position_list_idx cp)
          = Some l)
  /\ (forall l : list N,
        l ∈ position_lists_ sample_extended ->
        vec_size l = num_tuples_ sample_extended
        /\ vec_size l = vec_size (valid_rows_ sample_extended)).
Proof.
  split; [reflexivity|].
  apply (build_keeps_descriptors_in_range 0 (sample_ops ++ sample_more_ops)
           sample_extended).
  reflexivity.
Defined.

Lemma columns_in_call_order_witness :
  build (LogicalTile_new 0) (sample_ops ++ sample_more_ops)
    = Ok sample_extended
  /\ NumCols sample_extended
     = Z.of_nat (length (cols_of (sample_ops ++ sample_more_ops)))
  /\ forall c : N,
       GetBaseTile sample_extended c =
         match cols_of (sample_ops ++ sample_more_ops) !! N.to_nat c with
         | Some cp => Ok (base_tile cp)
         | None => Undefined
         end.
Proof.
  split; [reflexivity|].
  apply (columns_in_call_order 0 (sample_ops ++ sample_more_ops)
           sample_extended).
  reflexivity.
Defined.

Lemma accessors_reject_bad_ids_witness :
  ((NumCols sample_filtered <= Z.of_N 2)%Z
   \/ vec_size (valid_rows_ sample_filtered) <= 1)
  /\ GetValue N sample_GetInvalidValue sample_GetValue sample_filtered 2 1
     = (AssertionFailed, [])
  /\ GetTuple sample_GetTuple sample_filtered 2 1 = (AssertionFailed, []).
Proof.
  assert (H : (NumCols sample_filtered <= Z.of_N 2)%Z
              \/ vec_size (valid_rows_ sample_filtered) <= 1).
  { left. vm_compute. discriminate. }
  split; [exact H|].
  apply (accessors_reject_bad_ids N sample_GetInvalidValue sample_GetValue
           sample_GetTuple sample_filtered 2 1 H).
Defined.

Lemma accessors_on_valid_row_witness :
  well_formed sample_filtered
  /\ (Z.of_N 1 < NumCols sample_filtered)%Z
  /\ valid_rows_ sample_filtered !! N.to_nat 2 = Some true
  /\ exists (cp : ColumnPointer) (l : list N) (row : N),
       schema_ sample_filtered !! N.to_nat 1 = Some cp
       /\ position_lists_ sample_filtered !! N.to_nat (position_list_idx cp)
          = Some l
       /\ l !! N.to_nat 2 = Some row
       /\ GetBaseTile sample_filtered 1 = Ok (base_tile cp)
       /\ GetTuple sample_GetTuple sample_filtered 1 2 =
            (Ok (sample_GetTuple (base_tile cp) row),
             [CallGetTuple (base_tile cp) row])
       /\ GetValue N sample_GetInvalidValue sample_GetValue sample_filtered 1 2
          = (Ok (sample_GetValue (base_tile cp) row (origin_column_id cp)),
             [CallGetValue (base_tile cp) row (origin_column_id cp)]).
Proof.
  split; [exact sample_filtered_well_formed|].
  split; [reflexivity|]. split; [reflexivity|].
  apply (accessors_on_valid_row N sample_GetInvalidValue sample_GetValue
           sample_GetTuple sample_filtered 1 2 sample_filtered_well_formed);
    reflexivity.
Defined.

Lemma accessors_defined_on_well_formed_witness :
  well_formed sample_filtered
  /\ fst (GetValue N sample_GetInvalidValue sample_GetValue
            sample_filtered 5 7) <> Undefined
  /\ fst (GetTuple sample_GetTuple sample_filtered 5 7) <> Undefined.
Proof.
  split; [exact sample_filtered_well_formed|].
  apply (accessors_defined_on_well_formed N sample_GetInvalidValue
           sample_GetValue sample_GetTuple sample_filtered 5 7
           sample_filtered_well_formed).
Defined.

Lemma sample_skipped_first (r' : N) :
  r' < 2 -> valid_rows_ sample_skipped !! N.to_nat r' <> Some true.
Proof.
  intros Hr'. assert (Hcase : r' = 0 \/ r' = 1) by lia.
  destruct Hcase as [-> | ->]; discriminate.
Defined.

Lemma begin_at_first_valid_row_witness :
  (length (valid_rows_ sample_skipped) < 4)%nat
  /\ valid_rows_ sample_skipped !! N.to_nat 2 = Some true
  /\ (forall r' : N,
        r' < 2 -> valid_rows_ sample_skipped !! N.to_nat r' <> Some true)
  /\ exists b : iterator,
       begin_ sample_INVALID_ID 4 77 sample_skipped = Ok b
       /\ iterator_deref b = 2
       /\ tile_ b = 77.
Proof.
  split; [simpl; lia|]. split; [reflexivity|].
  split; [exact sample_skipped_first|].
  apply (begin_at_first_valid_row sample_INVALID_ID 4 77 sample_skipped 2).
  - simpl. lia.
  - reflexivity.
  - exact sample_skipped_first.
Defined.

Lemma increment_to_next_valid_row_witness :
  pos_ (mkIterator 0 77) < vec_size (valid_rows_ sample_filtered)
  /\ (length (valid_rows_ sample_filtered) < 4)%nat
  /\ exists it' : iterator,
       iterator_incr sample_INVALID_ID 4 sample_filtered (mkIterator 0 77)
       = Ok it'
       /\ iterator_post_incr sample_INVALID_ID 4 sample_filtered
            (mkIterator 0 77) = Ok (mkIterator 0 77, it')
       /\ tile_ it' = tile_ (mkIterator 0 77)
       /\ (forall r : N,
             pos_ (mkIterator 0 77) < r ->
             valid_rows_ sample_filtered !! N.to_nat r = Some true ->
             (forall r' : N,
                pos_ (mkIterator 0 77) < r' < r ->
                valid_rows_ sample_filtered !! N.to_nat r' <> Some true) ->
             iterator_deref it' = r)
       /\ ((forall r : N,
              pos_ (mkIterator 0 77) < r ->
              valid_rows_ sample_filtered !! N.to_nat r <> Some true) ->
           pos_ it' = sample_INVALID_ID).
Proof.
  split; [reflexivity|]. split; [simpl; lia|].
  apply (increment_to_next_valid_row sample_INVALID_ID 4 sample_filtered
           (mkIterator 0 77)).
  - reflexivity.
  - simpl. lia.
Defined.

Lemma iterate_count_witness :
  vec_size (valid_rows_ sample_filtered) <= sample_INVALID_ID
  /\ (length (valid_rows_ sample_filtered) < 4)%nat
  /\ exists rows : list N,
       iterate sample_INVALID_ID 4 77 sample_filtered = Ok rows
       /\ length rows
          = length (filter (fun b : bool => b = true)
                           (valid_rows_ sample_filtered))
       /\ (length rows <= length (valid_rows_ sample_filtered))%nat
       /\ forall r : N, r ∈ rows -> r < vec_size (valid_rows_ sample_filtered).
Proof.
  split; [vm_compute; discriminate|]. split; [simpl; lia|].
  apply (iterate_count sample_INVALID_ID 4 77 sample_filtered).
  - vm_compute. discriminate.
  - simpl. lia.
Defined.

Lemma iterate_rows_are_read_witness :
  well_formed sample_filtered
  /\ vec_size (valid_rows_ sample_filtered) <= sample_INVALID_ID
  /\ (length (valid_rows_ sample_filtered) < 4)%nat
  /\ exists rows : list N,
       iterate sample_INVALID_ID 4 77 sample_filtered = Ok rows
       /\ forall r c : N,
            r ∈ rows ->
            (Z.of_N c < NumCols sample_filtered)%Z ->
            exists base row col : N,
              GetValue N sample_GetInvalidValue sample_GetValue
                       sample_filtered c r =
                (Ok (sample_GetValue base row col),
                 [CallGetValue base row col])
              /\ GetTuple sample_GetTuple sample_filtered c r =
                   (Ok (sample_GetTuple base row), [CallGetTuple base row]).
Proof.
  split; [exact sample_filtered_well_formed|].
  split; [vm_compute; discriminate|]. split; [simpl; lia|].
  apply (iterate_rows_are_read sample_INVALID_ID N sample_GetInvalidValue
           sample_GetValue sample_GetTuple 4 77 sample_filtered
           sample_filtered_well_formed).
  - vm_compute. discriminate.
  - simpl. lia.
Defined.
